(** * Fixed-width multi-precision arithmetic of rsa.c

    A shallow embedding of the routines of [src/rsa.c] (addition,
    subtraction, comparison, multiply-subtract by one digit, schoolbook
    multiplication, long division and the exponentiation by 65537), and
    the proofs of their arithmetic contracts.

    Conventions of the embedding.
    - A [uint16_t] array is a [list Z], index 0 first; a pointer into a
      buffer that is written through ([dest], [c], [pr]) is the buffer
      together with a word index, a [const] operand is the list of words
      it points to.  The written buffer and the [const] operands are
      distinct objects, as they are at every call site of the file.
    - C integers are [Z] with the wrap-around of their type written out
      ([u8], [u16], [u32], [u64]); [int] and [unsigned] are 32 bits wide.
      The product of two promoted [uint16_t] in [mpi_mulsubuuk] is taken
      modulo 2^32, which is what the conversion to [uint32_t] yields on
      two's complement targets.
    - A read outside a list gives 0 and a write outside a list is dropped;
      in C both are undefined, and every theorem below fixes the buffer
      lengths so that neither happens.
    - [MPI_NUMBER_SIZE] comes from rsa.h and is the section variable [N]. *)

From Stdlib Require Import ZArith Zpow_facts Lia List Bool.
From stdpp Require Import base list.

Local Open Scope Z_scope.

(** ** Machine integers and memory *)

Definition u8 (x : Z) : Z := x mod 2 ^ 8.
Definition u16 (x : Z) : Z := x mod 2 ^ 16.
Definition u32 (x : Z) : Z := x mod 2 ^ 32.
Definition u64 (x : Z) : Z := x mod 2 ^ 64.

(** [mem[i]] read and written. *)
Definition rd (mem : list Z) (i : nat) : Z := default 0 (mem !! i).
Definition wr (mem : list Z) (i : nat) (v : Z) : list Z := <[i := v]> mem.

(** Number of times the body of [do { ... } while (--count);] runs for a
    [uint8_t count] that the body leaves alone: a counter that starts at
    0 wraps to 255 and gives 256 rounds. *)
Definition loop_count (count : Z) : nat :=
  if count =? 0 then 256%nat else Z.to_nat count.

(** [memcpy (dst, src, 2 * n)]: the first [n] words of [dst] become those
    of [src]. *)
Definition memcpy (dst src : list Z) (n : nat) : list Z :=
  take n src ++ drop n dst.

(** ** Numbers *)

(** The unsigned integer held by a little-endian sequence of 16-bit words. *)
Fixpoint val (l : list Z) : Z :=
  match l with
  | [] => 0
  | x :: l' => x + 65536 * val l'
  end.

Definition wordb (x : Z) : bool := (0 <=? x) && (x <? 65536).

(** Every element is a 16-bit word. *)
Definition words (l : list Z) : bool := forallb wordb l.

(** A number of exactly [n] words. *)
Definition number (n : nat) (l : list Z) : bool :=
  Nat.eqb (length l) n && words l.

(** The top bit of the most-significant of [n] words is set. *)
Definition normalized (n : nat) (b : list Z) : bool :=
  32768 <=? rd b (n - 1).

Section Rsa.

(** [MPI_NUMBER_SIZE] *)
Variable N : nat.

(** ** mpi_add: [*dest += *src], returns the carry *)

Fixpoint add_loop (count : nat) (c : Z) (mem : list Z) (dest : nat)
    (src : list Z) (s : nat) : list Z * Z :=
  match count with
  | O => (mem, c)
  | S count' =>
      let c := u32 (c + (rd mem dest + rd src s)) in
      let mem := wr mem dest (Z.land c 0xFFFF) in
      add_loop count' (Z.shiftr c 16) mem (S dest) src (S s)
  end.

Definition mpi_add (mem : list Z) (dest : nat) (src : list Z) : list Z * Z :=
  let '(mem, c) := add_loop (loop_count (u8 (Z.of_nat N))) 0 mem dest src 0 in
  (mem, u8 (Z.land c 1)).

(** ** mpi_sub: [*dest -= *src] *)

Fixpoint sub_loop (count : nat) (c : Z) (mem : list Z) (dest : nat)
    (src : list Z) (s : nat) : list Z :=
  match count with
  | O => mem
  | S count' =>
      let c := u32 (c + (65535 + rd mem dest - rd src s)) in
      let mem := wr mem dest (Z.land c 0xFFFF) in
      sub_loop count' (Z.land (Z.shiftr c 16) 1) mem (S dest) src (S s)
  end.

Definition mpi_sub (mem : list Z) (dest : nat) (src : list Z) : list Z :=
  sub_loop (loop_count (u8 (Z.of_nat N))) 1 mem dest src 0.

(** ** mpi_cmp: sign of [*a - *b] *)

Fixpoint cmp_loop (count : nat) (mem : list Z) (a : nat) (bm : list Z)
    (b : nat) : Z :=
  match count with
  | O => 0
  | S count' =>
      let dif := rd mem a - rd bm b in
      if dif =? 0 then cmp_loop count' mem (pred a) bm (pred b)
      else if dif >? 0 then 1 else -1
  end.

Definition mpi_cmp (mem : list Z) (a : nat) (b : list Z) : Z :=
  cmp_loop (loop_count (u8 (Z.of_nat N))) mem (a + (N - 1)) b (N - 1).

(** ** mpi_mulsubuuk: [*c -= *a * b] over [N + 1] words, returns /borrow *)

Fixpoint mulsub_loop (count : nat) (nborrow mcarry : Z) (mem : list Z)
    (c : nat) (a : list Z) (ai : nat) (b : Z) : list Z * nat * Z * Z :=
  match count with
  | O => (mem, c, nborrow, mcarry)
  | S count' =>
      let mcarry := u32 (mcarry + u32 (rd a ai * b)) in
      let nborrow := u32 (nborrow + u32 (65535 + rd mem c - Z.land mcarry 0xFFFF)) in
      let mem := wr mem c (Z.land nborrow 0xFFFF) in
      mulsub_loop count' (Z.land (Z.shiftr nborrow 16) 1) (Z.shiftr mcarry 16)
        mem (S c) a (S ai) b
  end.

Definition mpi_mulsubuuk (mem : list Z) (c : nat) (a : list Z) (b : Z)
    : list Z * Z :=
  let '(mem, c, nborrow, mcarry) :=
    mulsub_loop (loop_count (u8 (Z.of_nat N))) 1 0 mem c a 0 b in
  let nborrow := u32 (nborrow + u32 (65535 + rd mem c - Z.land mcarry 0xFFFF)) in
  let mem := wr mem c (Z.land nborrow 0xFFFF) in
  (mem, u8 (Z.land (Z.shiftr nborrow 16) 1)).

(** ** mpi_muluu: [*c = *a * *b], double width *)

(** The inner loop: [aa] walks up, [bb] walks down. *)
Fixpoint mul_inner (count2 : nat) (mcarry : Z) (a : list Z) (aa : nat)
    (b : list Z) (bb : nat) : Z :=
  match count2 with
  | O => mcarry
  | S count2' =>
      mul_inner count2' (u64 (mcarry + u32 (rd a aa * rd b bb))) a (S aa) b (pred bb)
  end.

(** First outer loop, the low words: one more product per round. *)
Fixpoint mul_low (count : nat) (mcarry niter2 : Z) (cm : list Z) (c : nat)
    (a b : list Z) (bp : nat) : list Z * nat * Z * Z * nat :=
  match count with
  | O => (cm, c, mcarry, niter2, bp)
  | S count' =>
      let count2 := niter2 in
      let niter2 := u8 (niter2 + 1) in
      let mcarry := mul_inner (loop_count count2) mcarry a 0 b bp in
      let cm := wr cm c (u16 (Z.land mcarry 0xFFFF)) in
      mul_low count' (Z.shiftr mcarry 16) niter2 cm (S c) a b (S bp)
  end.

(** Second outer loop, the high words: one product fewer per round. *)
Fixpoint mul_high (count : nat) (mcarry niter2 : Z) (cm : list Z) (c : nat)
    (a : list Z) (ap : nat) (b : list Z) (bp : nat) : list Z * nat * Z :=
  match count with
  | O => (cm, c, mcarry)
  | S count' =>
      let niter2 := u8 (niter2 - 1) in
      let count2 := niter2 in
      let ap := S ap in
      let mcarry := mul_inner (loop_count count2) mcarry a ap b bp in
      let cm := wr cm c (u16 (Z.land mcarry 0xFFFF)) in
      mul_high count' (Z.shiftr mcarry 16) niter2 cm (S c) a ap b bp
  end.

Definition mpi_muluu (cm : list Z) (a b : list Z) : list Z :=
  let '(cm, c, mcarry, niter2, bp) :=
    mul_low (loop_count (u8 (Z.of_nat N))) 0 1 cm 0 a b 0 in
  let count := u8 (Z.of_nat N - 1) in
  let bp := pred bp in
  let niter2 := u8 (niter2 - 1) in
  let '(cm, c, mcarry) := mul_high (loop_count count) mcarry niter2 cm c a 0 b bp in
  wr cm c (u16 (Z.land mcarry 0xFFFF)).

(** ** mpi_moduu: [*a %= *b] *)

(** One round of the loop on the state (buffer, [pr], [flag]). *)
Definition moduu_body (b : list Z) (st : list Z * nat * bool)
    : list Z * nat * bool :=
  let '(mem, pr, flag) := st in
  let '(mem, flag) :=
    if flag then
      let pq := Z.lor (u32 (Z.shiftl (rd mem (pr + N)) 16)) (rd mem (pr + (N - 1))) in
      let pq := pq / rd b (N - 1) in
      let pq := if pq >? 0xFFFF then 0xFFFF else pq in
      let '(mem, nb) := mpi_mulsubuuk mem pr b (u16 pq) in
      let mem :=
        if nb =? 0 then
          let '(mem, carry) := mpi_add mem pr b in
          let carry := u32 (carry + rd mem (pr + N)) in
          let mem := wr mem (pr + N) (Z.land carry 0xFFFF) in
          if Z.land carry 0x10000 =? 0 then
            let '(mem, carry) := mpi_add mem pr b in
            let carry := u32 (carry + rd mem (pr + N)) in
            wr mem (pr + N) (Z.land carry 0xFFFF)
          else mem
        else mem in
      (mem, negb (rd mem (pr + (N - 1)) =? 0))
    else if negb (rd mem (pr + (N - 1)) =? 0) then
      if mpi_cmp mem pr b >=? 0 then
        let mem := mpi_sub mem pr b in
        (mem, negb (rd mem (pr + (N - 1)) =? 0))
      else (mem, true)
    else (mem, flag) in
  (mem, pred pr, flag).

Definition mpi_moduu (a b : list Z) : list Z :=
  fst (fst (Nat.iter (loop_count (u8 (Z.of_nat N + 1))) (moduu_body b)
              (a, N, false))).

(** ** mpi_powm65537: [*m = *m ^ 65537 % *n] *)

(** One round of the squaring loop on ([bufprod], [bufmod]). *)
Definition square_round (n : list Z) (st : list Z * list Z) : list Z * list Z :=
  let '(bufprod, bufmod) := st in
  let bufprod := mpi_muluu bufprod bufmod bufmod in
  let bufprod := mpi_moduu bufprod n in
  (bufprod, memcpy bufmod bufprod N).

(** [bufprod] and [bufmod] are the contents the two stack buffers happen to
    have on entry. *)
Definition mpi_powm65537 (bufprod bufmod : list Z) (m n : list Z) : list Z :=
  let bufmod := memcpy bufmod m N in
  let '(bufprod, bufmod) :=
    Nat.iter (loop_count 16) (square_round n) (bufprod, bufmod) in
  let bufprod := mpi_muluu bufprod bufmod m in
  let bufprod := mpi_moduu bufprod n in
  memcpy m bufprod N.

End Rsa.

(** ** Vocabulary of the proofs *)

(** The weight of word [n]: [2^(16 n)]. *)
Definition Bpow (n : nat) : Z := 65536 ^ Z.of_nat n.

(** Coefficient [k] of the product of two word sequences read as
    polynomials in 65536: the sum of [a_i * b_(k - i)]. *)
Fixpoint coef (a b : list Z) (k : nat) : Z :=
  match a with
  | [] => 0
  | x :: a' => x * rd b k + match k with O => 0 | S k' => coef a' b k' end
  end.

(** The coefficients below [n], each at its weight. *)
Fixpoint conv (a b : list Z) (n : nat) : Z :=
  match n with
  | O => 0
  | S n' => conv a b n' + Bpow n' * coef a b n'
  end.

(** The words of [b] below [n], each at its weight. *)
Fixpoint low_val (b : list Z) (n : nat) : Z :=
  match n with
  | O => 0
  | S n' => low_val b n' + Bpow n' * rd b n'
  end.

(** * Proofs *)

(** ** Machine arithmetic *)

Lemma land_FFFF x : Z.land x 0xFFFF = x mod 65536.
Proof. change 0xFFFF with (Z.ones 16). rewrite Z.land_ones by lia. reflexivity. Qed.

Lemma land_1 x : Z.land x 1 = x mod 2.
Proof. change 1 with (Z.ones 1) at 1. rewrite Z.land_ones by lia. reflexivity. Qed.

Lemma shiftr_16 x : Z.shiftr x 16 = x / 65536.
Proof. rewrite Z.shiftr_div_pow2 by lia. reflexivity. Qed.

Lemma u8_small x : 0 <= x < 256 -> u8 x = x.
Proof. intros. unfold u8. apply Z.mod_small. lia. Qed.

Lemma u16_small x : 0 <= x < 65536 -> u16 x = x.
Proof. intros. unfold u16. apply Z.mod_small. lia. Qed.

Lemma u32_small x : 0 <= x < 4294967296 -> u32 x = x.
Proof. intros. unfold u32. apply Z.mod_small. lia. Qed.

Lemma u64_small x : 0 <= x < 18446744073709551616 -> u64 x = x.
Proof. intros. unfold u64. apply Z.mod_small. lia. Qed.

(** Splitting a sum of at most two words into a digit and a carry. *)
Lemma digit_carry x : 0 <= x < 131072 ->
  0 <= x mod 65536 < 65536 /\ 0 <= x / 65536 <= 1 /\
  x = x mod 65536 + 65536 * (x / 65536).
Proof.
  intros H. pose proof (Z.div_mod x 65536). pose proof (Z.mod_pos_bound x 65536).
  assert (x / 65536 < 2) by (apply Z.div_lt_upper_bound; lia).
  assert (0 <= x / 65536) by (apply Z.div_pos; lia). lia.
Qed.

Lemma loop_count_u8 (n : nat) :
  (1 <= n <= 255)%nat -> loop_count (u8 (Z.of_nat n)) = n.
Proof.
  intros H. rewrite u8_small by lia. unfold loop_count.
  destruct (Z.eqb_spec (Z.of_nat n) 0); [lia | apply Nat2Z.id].
Qed.

(** ** Word sequences and their values *)

Lemma Bpow_0 : Bpow 0 = 1.
Proof. reflexivity. Qed.

Lemma Bpow_S n : Bpow (S n) = 65536 * Bpow n.
Proof. unfold Bpow. rewrite Nat2Z.inj_succ, Z.pow_succ_r by lia. reflexivity. Qed.

Lemma Bpow_pos n : 0 < Bpow n.
Proof. unfold Bpow. apply Z.pow_pos_nonneg; lia. Qed.

Lemma Bpow_add n m : Bpow (n + m) = Bpow n * Bpow m.
Proof. unfold Bpow. rewrite Nat2Z.inj_add, Z.pow_add_r by lia. reflexivity. Qed.

Lemma Bpow_two n : Bpow n = 2 ^ (16 * Z.of_nat n).
Proof. unfold Bpow. rewrite Z.pow_mul_r by lia. reflexivity. Qed.

Lemma wordb_iff x : wordb x = true <-> 0 <= x < 65536.
Proof. unfold wordb. rewrite andb_true_iff, Z.leb_le, Z.ltb_lt. tauto. Qed.

Lemma words_nil : words [] = true.
Proof. reflexivity. Qed.

Lemma words_cons x l : words (x :: l) = true <-> 0 <= x < 65536 /\ words l = true.
Proof. unfold words. simpl. rewrite andb_true_iff, wordb_iff. tauto. Qed.

Lemma words_app l1 l2 :
  words (l1 ++ l2) = true <-> words l1 = true /\ words l2 = true.
Proof. unfold words. rewrite forallb_app, andb_true_iff. tauto. Qed.

Lemma words_snoc l x :
  words l = true -> 0 <= x < 65536 -> words (l ++ [x]) = true.
Proof.
  intros Hl Hx. apply words_app. split; [exact Hl|].
  apply words_cons. split; [exact Hx | reflexivity].
Qed.

Lemma words_replicate n : words (replicate n 0) = true.
Proof.
  induction n as [|n IH]; [reflexivity|].
  change (replicate (S n) 0) with (0 :: replicate n 0).
  apply words_cons. split; [lia | exact IH].
Qed.

Lemma words_rd l i : words l = true -> 0 <= rd l i < 65536.
Proof.
  unfold rd. revert i. induction l as [|x l IH]; intros i H.
  - destruct i; simpl; lia.
  - apply words_cons in H as [Hx Hl]. destruct i; simpl; [lia | apply IH, Hl].
Qed.

Lemma val_app l1 l2 : val (l1 ++ l2) = val l1 + Bpow (length l1) * val l2.
Proof.
  induction l1 as [|x l1 IH]; simpl val; simpl length.
  - rewrite Bpow_0. lia.
  - rewrite IH, Bpow_S. lia.
Qed.

Lemma val_bound l : words l = true -> 0 <= val l < Bpow (length l).
Proof.
  induction l as [|x l IH]; intros H; simpl val; simpl length.
  - rewrite Bpow_0. lia.
  - apply words_cons in H as [Hx Hl]. rewrite Bpow_S. specialize (IH Hl). lia.
Qed.

Lemma val_replicate n : val (replicate n 0) = 0.
Proof. induction n; simpl; lia. Qed.

(** Equal width and equal value: equal sequences. *)
Lemma val_inj l1 : forall l2,
  length l1 = length l2 -> words l1 = true -> words l2 = true ->
  val l1 = val l2 -> l1 = l2.
Proof.
  induction l1 as [|x l1 IH]; intros [|y l2] Hlen H1 H2 Hv; simpl in Hlen;
    try discriminate; [reflexivity|].
  apply words_cons in H1 as [Hx H1]. apply words_cons in H2 as [Hy H2].
  simpl in Hv. assert (x = y /\ val l1 = val l2) as [-> Hv'] by lia.
  f_equal. apply IH; [lia | assumption..].
Qed.

(** A sequence whose value is below [Bpow n] is zero from word [n] on. *)
Lemma val_small_split l1 l2 :
  words l1 = true -> words l2 = true ->
  val (l1 ++ l2) < Bpow (length l1) -> l2 = replicate (length l2) 0.
Proof.
  intros H1 H2 Hv. rewrite val_app in Hv.
  pose proof (val_bound l1 H1). pose proof (Bpow_pos (length l1)).
  assert (Hz : val l2 = 0).
  { pose proof (val_bound l2 H2). nia. }
  apply val_inj; [now rewrite length_replicate | assumption | apply words_replicate
                 | now rewrite val_replicate].
Qed.

(** ** Reads and writes inside a buffer *)

Lemma rd_mid pre x post : rd (pre ++ x :: post) (length pre) = x.
Proof. unfold rd. rewrite list_lookup_middle; reflexivity. Qed.

Lemma wr_mid pre x post v :
  wr (pre ++ x :: post) (length pre) v = (pre ++ [v]) ++ post.
Proof.
  unfold wr. rewrite <- (Nat.add_0_r (length pre)), insert_app_r. simpl.
  rewrite <- app_assoc. reflexivity.
Qed.

Lemma wr_at pre x post v i :
  i = length pre -> wr (pre ++ x :: post) i v = (pre ++ [v]) ++ post.
Proof. intros ->. apply wr_mid. Qed.

Lemma length_snoc (pre : list Z) v : length (pre ++ [v]) = S (length pre).
Proof. rewrite length_app. simpl. lia. Qed.

Lemma rd_app_r pre l i : rd (pre ++ l) (length pre + i) = rd l i.
Proof. unfold rd. rewrite lookup_app_r by lia. f_equal. f_equal. lia. Qed.

Lemma rd_last l x : rd (l ++ [x]) (length l) = x.
Proof. apply rd_mid. Qed.

Lemma snoc_inv (l : list Z) n :
  length l = S n -> exists l' x, l = l' ++ [x] /\ length l' = n.
Proof.
  intros H. destruct l as [|y l] using rev_ind; [discriminate|].
  rewrite length_snoc in H. exists l, y. split; [reflexivity | lia].
Qed.

(** ** The carry and borrow loops *)

Lemma add_loop_spec count : forall c pre d post sp ys sq,
  length d = count -> length ys = count ->
  words d = true -> words ys = true -> 0 <= c <= 1 ->
  exists d' c',
    add_loop count c (pre ++ d ++ post) (length pre) (sp ++ ys ++ sq) (length sp)
      = (pre ++ d' ++ post, c') /\
    length d' = count /\ words d' = true /\ 0 <= c' <= 1 /\
    val d' + Bpow count * c' = val d + val ys + c.
Proof.
  induction count as [|k IH]; intros c pre d post sp ys sq Hd Hy Wd Wy Hc.
  - destruct d; [|discriminate]. destruct ys; [|discriminate].
    exists [], c. simpl. rewrite Bpow_0. repeat split; lia.
  - destruct d as [|x d]; [discriminate|]. destruct ys as [|y ys]; [discriminate|].
    apply words_cons in Wd as [Hx Wd]. apply words_cons in Wy as [Hy' Wy].
    simpl in Hd, Hy. cbn [add_loop app]. rewrite !rd_mid.
    rewrite (u32_small (c + (x + y))) by lia.
    rewrite land_FFFF, shiftr_16, wr_mid.
    destruct (digit_carry (c + (x + y))) as (Hm & Hq & Heq); [lia|].
    replace (sp ++ y :: ys ++ sq) with ((sp ++ [y]) ++ ys ++ sq)
      by (rewrite <- app_assoc; reflexivity).
    rewrite <- (length_snoc pre ((c + (x + y)) mod 65536)), <- (length_snoc sp y).
    destruct (IH ((c + (x + y)) / 65536) (pre ++ [(c + (x + y)) mod 65536]) d post
                (sp ++ [y]) ys sq) as (d' & c' & E & Ld & Wd' & Hc' & Hv);
      [lia | lia | assumption | assumption | lia |].
    exists ((c + (x + y)) mod 65536 :: d'), c'. rewrite E.
    split; [rewrite <- app_assoc; reflexivity|].
    split; [simpl; lia|]. split; [apply words_cons; split; assumption|].
    split; [assumption|]. simpl val. rewrite Bpow_S. lia.
Qed.

Lemma sub_loop_spec count : forall c pre d post sp ys sq,
  length d = count -> length ys = count ->
  words d = true -> words ys = true -> 0 <= c <= 1 ->
  exists d' c',
    sub_loop count c (pre ++ d ++ post) (length pre) (sp ++ ys ++ sq) (length sp)
      = pre ++ d' ++ post /\
    length d' = count /\ words d' = true /\ 0 <= c' <= 1 /\
    val d' + Bpow count * c' = val d - val ys + c - 1 + Bpow count.
Proof.
  induction count as [|k IH]; intros c pre d post sp ys sq Hd Hy Wd Wy Hc.
  - destruct d; [|discriminate]. destruct ys; [|discriminate].
    exists [], c. simpl. rewrite Bpow_0. repeat split; lia.
  - destruct d as [|x d]; [discriminate|]. destruct ys as [|y ys]; [discriminate|].
    apply words_cons in Wd as [Hx Wd]. apply words_cons in Wy as [Hy' Wy].
    simpl in Hd, Hy. cbn [sub_loop app]. rewrite !rd_mid.
    rewrite (u32_small (c + (65535 + x - y))) by lia.
    rewrite land_FFFF, shiftr_16, land_1, wr_mid.
    destruct (digit_carry (c + (65535 + x - y))) as (Hm & Hq & Heq); [lia|].
    rewrite (Z.mod_small (_ / 65536) 2) by lia.
    replace (sp ++ y :: ys ++ sq) with ((sp ++ [y]) ++ ys ++ sq)
      by (rewrite <- app_assoc; reflexivity).
    rewrite <- (length_snoc pre ((c + (65535 + x - y)) mod 65536)),
      <- (length_snoc sp y).
    destruct (IH ((c + (65535 + x - y)) / 65536)
                (pre ++ [(c + (65535 + x - y)) mod 65536]) d post
                (sp ++ [y]) ys sq) as (d' & c' & E & Ld & Wd' & Hc' & Hv);
      [lia | lia | assumption | assumption | lia |].
    exists ((c + (65535 + x - y)) mod 65536 :: d'), c'. rewrite E.
    split; [rewrite <- app_assoc; reflexivity|].
    split; [simpl; lia|]. split; [apply words_cons; split; assumption|].
    split; [assumption|]. simpl val. rewrite !Bpow_S. lia.
Qed.

Lemma cmp_loop_spec count : forall pre d post ys sq,
  length d = count -> length ys = count ->
  words d = true -> words ys = true ->
  cmp_loop count (pre ++ d ++ post) (length pre + (count - 1)) (ys ++ sq) (count - 1)
    = Z.sgn (val d - val ys).
Proof.
  induction count as [|k IH]; intros pre d post ys sq Hd Hy Wd Wy.
  - destruct d; [|discriminate]. destruct ys; [|discriminate]. reflexivity.
  - apply snoc_inv in Hd as (d0 & x & -> & Hd). apply snoc_inv in Hy as (y0 & y & -> & Hy).
    apply words_app in Wd as [Wd Wx]. apply words_app in Wy as [Wy Wy'].
    apply words_cons in Wx as [Hx _]. apply words_cons in Wy' as [Hy' _].
    cbn [cmp_loop].
    replace (pre ++ (d0 ++ [x]) ++ post) with ((pre ++ d0) ++ x :: post)
      by (rewrite <- !app_assoc; reflexivity).
    replace (length pre + (S k - 1))%nat with (length (pre ++ d0))
      by (rewrite length_app; lia).
    replace (S k - 1)%nat with (length y0) by lia.
    rewrite rd_mid. rewrite <- app_assoc. cbn [app]. rewrite rd_mid.
    rewrite !val_app, Hd, Hy. simpl val.
    pose proof (val_bound d0 Wd) as Bd. pose proof (val_bound y0 Wy) as By.
    rewrite Hd in Bd. rewrite Hy in By. pose proof (Bpow_pos k) as Bk.
    destruct (Z.eqb_spec (x - y) 0) as [E|E].
    + assert (x = y) as -> by lia.
      replace (val d0 + Bpow k * (y + 65536 * 0) - (val y0 + Bpow k * (y + 65536 * 0)))
        with (val d0 - val y0) by lia.
      rewrite <- (IH pre d0 (y :: post) y0 (y :: sq) Hd Hy Wd Wy).
      destruct k as [|k']; [reflexivity|].
      rewrite <- app_assoc. f_equal; rewrite ?length_app; lia.
    + destruct (Z.gtb_spec (x - y) 0) as [G|G].
      * symmetry. apply Z.sgn_pos. nia.
      * symmetry. apply Z.sgn_neg. nia.
Qed.

Section Primitives.

Variable N : nat.
Hypothesis N_range : (1 <= N <= 255)%nat.

Lemma mpi_add_window pre d post src :
  length d = N -> length src = N -> words d = true -> words src = true ->
  exists d' c,
    mpi_add N (pre ++ d ++ post) (length pre) src = (pre ++ d' ++ post, c) /\
    length d' = N /\ words d' = true /\ 0 <= c <= 1 /\
    val d' + Bpow N * c = val d + val src.
Proof.
  intros Hd Hs Wd Ws. unfold mpi_add. rewrite loop_count_u8 by assumption.
  destruct (add_loop_spec N 0 pre d post [] src [] Hd Hs Wd Ws ltac:(lia))
    as (d' & c & E & Ld & Wd' & Hc & Hv).
  rewrite app_nil_r in E. simpl in E. rewrite E.
  exists d', c. rewrite land_1, (Z.mod_small c 2), u8_small by lia.
  repeat split; try assumption; lia.
Qed.

Lemma mpi_sub_window pre d post src :
  length d = N -> length src = N -> words d = true -> words src = true ->
  exists d',
    mpi_sub N (pre ++ d ++ post) (length pre) src = pre ++ d' ++ post /\
    length d' = N /\ words d' = true /\
    val d' = (val d - val src) mod Bpow N.
Proof.
  intros Hd Hs Wd Ws. unfold mpi_sub. rewrite loop_count_u8 by assumption.
  destruct (sub_loop_spec N 1 pre d post [] src [] Hd Hs Wd Ws ltac:(lia))
    as (d' & c & E & Ld & Wd' & Hc & Hv).
  rewrite app_nil_r in E. simpl in E. rewrite E.
  exists d'. repeat split; try assumption.
  pose proof (val_bound d' Wd') as B. rewrite Ld in B.
  apply Z.mod_unique_pos with (q := c - 1); lia.
Qed.

Lemma mpi_cmp_window pre d post src :
  length d = N -> length src = N -> words d = true -> words src = true ->
  mpi_cmp N (pre ++ d ++ post) (length pre) src = Z.sgn (val d - val src).
Proof.
  intros Hd Hs Wd Ws. unfold mpi_cmp. rewrite loop_count_u8 by assumption.
  rewrite <- (app_nil_r src) at 1. apply cmp_loop_spec; assumption.
Qed.

End Primitives.

(** ** Multiply by a digit and subtract *)

Lemma mul_digit_carry m y b :
  0 <= m < 65536 -> 0 <= y < 65536 -> 0 <= b < 65536 ->
  0 <= m + y * b < 4294967296 /\ 0 <= y * b < 4294967296 /\
  0 <= (m + y * b) / 65536 < 65536 /\ 0 <= (m + y * b) mod 65536 < 65536 /\
  m + y * b = (m + y * b) mod 65536 + 65536 * ((m + y * b) / 65536).
Proof.
  intros Hm Hy Hb.
  assert (0 <= y * b <= 65535 * 65535) by nia.
  pose proof (Z.div_mod (m + y * b) 65536). pose proof (Z.mod_pos_bound (m + y * b) 65536).
  assert ((m + y * b) / 65536 < 65536) by (apply Z.div_lt_upper_bound; lia).
  assert (0 <= (m + y * b) / 65536) by (apply Z.div_pos; lia). lia.
Qed.

Lemma mulsub_loop_spec count : forall nb mc pre d post sp ys sq b,
  length d = count -> length ys = count ->
  words d = true -> words ys = true ->
  0 <= nb <= 1 -> 0 <= mc < 65536 -> 0 <= b < 65536 ->
  exists d' nb' mc',
    mulsub_loop count nb mc (pre ++ d ++ post) (length pre)
                (sp ++ ys ++ sq) (length sp) b
      = (pre ++ d' ++ post, length (pre ++ d'), nb', mc') /\
    length d' = count /\ words d' = true /\
    0 <= nb' <= 1 /\ 0 <= mc' < 65536 /\
    val d' - Bpow count * (mc' + 1 - nb') = val d - val ys * b - (mc + 1 - nb).
Proof.
  induction count as [|k IH]; intros nb mc pre d post sp ys sq b Hd Hy Wd Wy Hnb Hmc Hb.
  - destruct d; [|discriminate]. destruct ys; [|discriminate].
    exists [], nb, mc. simpl. rewrite app_nil_r, Bpow_0. repeat split; lia.
  - destruct d as [|x d]; [discriminate|]. destruct ys as [|y ys]; [discriminate|].
    apply words_cons in Wd as [Hx Wd]. apply words_cons in Wy as [Hy' Wy].
    simpl in Hd, Hy. cbn [mulsub_loop app]. rewrite !rd_mid.
    destruct (mul_digit_carry mc y b Hmc Hy' Hb) as (M1 & M2 & M3 & M4 & M5).
    rewrite (u32_small (y * b)) by lia. rewrite (u32_small (mc + y * b)) by lia.
    rewrite !land_FFFF, !shiftr_16, land_1.
    set (lo := (mc + y * b) mod 65536) in *. set (hi := (mc + y * b) / 65536) in *.
    rewrite (u32_small (65535 + x - lo)) by lia.
    rewrite (u32_small (nb + (65535 + x - lo))) by lia.
    destruct (digit_carry (nb + (65535 + x - lo))) as (Hm & Hq & Heq); [lia|].
    rewrite (Z.mod_small (_ / 65536) 2) by lia. rewrite wr_mid.
    set (x' := (nb + (65535 + x - lo)) mod 65536) in *.
    set (nb1 := (nb + (65535 + x - lo)) / 65536) in *.
    replace (sp ++ y :: ys ++ sq) with ((sp ++ [y]) ++ ys ++ sq)
      by (rewrite <- app_assoc; reflexivity).
    rewrite <- (length_snoc pre x'), <- (length_snoc sp y).
    destruct (IH nb1 hi (pre ++ [x']) d post (sp ++ [y]) ys sq b)
      as (d' & nb' & mc' & E & Ld & Wd' & Hnb' & Hmc' & Hv);
      [lia | lia | assumption | assumption | lia | lia | lia |].
    exists (x' :: d'), nb', mc'. rewrite E.
    split; [rewrite <- !app_assoc; reflexivity|].
    split; [simpl; lia|]. split; [apply words_cons; split; assumption|].
    split; [assumption|]. split; [assumption|]. simpl val. rewrite Bpow_S. nia.
Qed.

Section MulSub.

Variable N : nat.
Hypothesis N_range : (1 <= N <= 255)%nat.

(** The accumulator of [N + 1] words sits anywhere in the buffer. *)
Lemma mpi_mulsubuuk_window pre w post a b :
  length w = S N -> length a = N -> words w = true -> words a = true ->
  0 <= b < 65536 ->
  exists w' nb,
    mpi_mulsubuuk N (pre ++ w ++ post) (length pre) a b = (pre ++ w' ++ post, nb) /\
    length w' = S N /\ words w' = true /\ 0 <= nb <= 1 /\
    val w' = val w - val a * b + Bpow (S N) * (1 - nb).
Proof.
  intros Hw Ha Ww Wa Hb. apply snoc_inv in Hw as (d & t & -> & Hd).
  apply words_app in Ww as [Wd Wt]. apply words_cons in Wt as [Ht _].
  unfold mpi_mulsubuuk. rewrite loop_count_u8 by assumption.
  rewrite <- (app_assoc d [t] post).
  destruct (mulsub_loop_spec N 1 0 pre d ([t] ++ post) [] a [] b Hd Ha Wd Wa)
    as (d' & nb & mc & E & Ld & Wd' & Hnb & Hmc & Hv); [lia | lia | lia |].
  rewrite app_nil_r in E. simpl in E. simpl. rewrite E.
  rewrite (app_assoc pre d' (t :: post)), rd_mid, wr_mid.
  rewrite !land_FFFF, shiftr_16, land_1.
  rewrite (Z.mod_small mc 65536) by lia.
  rewrite (u32_small (65535 + t - mc)) by lia.
  rewrite (u32_small (nb + (65535 + t - mc))) by lia.
  destruct (digit_carry (nb + (65535 + t - mc))) as (Hm & Hq & Heq); [lia|].
  rewrite (Z.mod_small (_ / 65536) 2) by lia. rewrite u8_small by lia.
  set (t' := (nb + (65535 + t - mc)) mod 65536) in *.
  set (nbf := (nb + (65535 + t - mc)) / 65536) in *.
  exists (d' ++ [t']), nbf.
  split; [rewrite <- !app_assoc; reflexivity|].
  split; [rewrite length_snoc; lia|].
  split; [apply words_snoc; assumption|].
  split; [assumption|].
  rewrite !val_app, Ld, Hd. simpl val. rewrite Bpow_S. nia.
Qed.

End MulSub.

(** ** Arithmetic of the quotient digit *)

Lemma lor_words t s :
  0 <= t < 65536 -> 0 <= s < 65536 ->
  Z.lor (u32 (Z.shiftl t 16)) s = t * 65536 + s.
Proof.
  intros Ht Hs. rewrite Z.shiftl_mul_pow2 by lia. change (2 ^ 16) with 65536.
  rewrite u32_small by lia. symmetry. apply Z.add_nocarry_lor.
  apply Z.bits_inj'. intros n Hn. rewrite Z.land_spec, Z.bits_0.
  destruct (Z.ltb_spec n 16) as [L|L].
  - change 65536 with (2 ^ 16). rewrite Z.mul_pow2_bits_low by lia. reflexivity.
  - rewrite andb_comm. destruct (Z.eqb_spec s 0) as [->|Hs0].
    + rewrite Z.bits_0. reflexivity.
    + rewrite (Z.bits_above_log2 s n); [reflexivity | lia |].
      assert (Z.log2 s < 16) by (apply Z.log2_lt_pow2; lia). lia.
Qed.

Lemma land_bit16 x :
  0 <= x < 131072 -> (Z.land x 0x10000 =? 0) = (x / 65536 =? 0).
Proof.
  intros Hx. destruct (digit_carry x Hx) as (Hm & Hq & Heq).
  assert (E : Z.land x 0x10000 = if Z.testbit x 16 then 65536 else 0).
  { apply Z.bits_inj'. intros n Hn. rewrite Z.land_spec.
    change 0x10000 with (2 ^ 16). rewrite Z.pow2_bits_eqb by lia.
    destruct (Z.eqb_spec 16 n) as [<-|Hne].
    - rewrite andb_true_r. destruct (Z.testbit x 16) eqn:T.
      + change 65536 with (2 ^ 16). rewrite Z.pow2_bits_true; [reflexivity | lia].
      + rewrite Z.bits_0. reflexivity.
    - rewrite andb_false_r. destruct (Z.testbit x 16).
      + change 65536 with (2 ^ 16). rewrite Z.pow2_bits_false; [reflexivity | lia].
      + rewrite Z.bits_0. reflexivity. }
  rewrite E, Z.testbit_odd, shiftr_16.
  assert (x / 65536 = 0 \/ x / 65536 = 1) as [-> | ->] by lia; reflexivity.
Qed.

(** The trial digit [min (t / v) 65535], from the top two words [t] of the
    partial remainder [u] and the top word [v] of the normalized divisor
    [b], is never below the true digit and exceeds it by at most two. *)
Lemma trial_digit_bounds P v bl b t ul u :
  0 < P -> 32768 <= v < 65536 -> 0 <= bl < P -> b = bl + P * v ->
  0 <= t -> 0 <= ul < P -> u = ul + P * t -> u < b * 65536 ->
  let qh := Z.min (t / v) 65535 in
  0 <= qh <= 65535 /\ u < (qh + 1) * b /\ (qh - 2) * b <= u.
Proof.
  intros HP Hv Hbl Hb Ht Hul Hu Hlt qh.
  assert (Q0 : 0 <= t / v) by (apply Z.div_pos; lia).
  assert (Q1 : v * (t / v) <= t) by (apply Z.mul_div_le; lia).
  assert (Q2 : t < v * Z.succ (t / v)) by (apply Z.mul_succ_div_gt; lia).
  assert (Qh : 0 <= qh <= 65535) by (unfold qh; lia).
  split; [assumption|]. split.
  - destruct (Z.le_gt_cases (t / v) 65535) as [L|L].
    + assert (qh = t / v) as -> by (unfold qh; lia).
      assert (t + 1 <= v * (t / v + 1)) by lia.
      assert (P * (t + 1) <= P * (v * (t / v + 1))) by (apply Z.mul_le_mono_nonneg_l; lia).
      nia.
    + assert (qh = 65535) as -> by (unfold qh; lia). lia.
  - assert (qh <= t / v) by (unfold qh; lia).
    assert (Hqv : qh * v <= t) by nia.
    destruct (Z.le_gt_cases qh 2) as [L|L]; [nia|].
    assert (H1 : (qh - 2) * bl <= (qh - 2) * P) by (apply Z.mul_le_mono_nonneg_l; lia).
    assert (H2 : P * (qh * v) <= P * t) by (apply Z.mul_le_mono_nonneg_l; lia).
    assert (H3 : P * (qh - 2) <= P * (2 * v)) by (apply Z.mul_le_mono_nonneg_l; lia).
    subst b u. nia.
Qed.

Lemma rd_window pre w post i :
  (i < length w)%nat -> rd (pre ++ w ++ post) (length pre + i) = rd w i.
Proof.
  intros H. unfold rd. rewrite lookup_app_r by lia.
  replace (length pre + i - length pre)%nat with i by lia.
  rewrite lookup_app_l by assumption. reflexivity.
Qed.

Lemma wr_window pre w post i v :
  (i < length w)%nat ->
  wr (pre ++ w ++ post) (length pre + i) v = pre ++ wr w i v ++ post.
Proof.
  intros H. unfold wr. rewrite insert_app_r, insert_app_l by assumption. reflexivity.
Qed.

Lemma wr_last d t v : wr (d ++ [t]) (length d) v = d ++ [v].
Proof. rewrite wr_mid. apply app_nil_r. Qed.

Lemma loop_count_u8_succ (n : nat) :
  (1 <= n <= 255)%nat -> loop_count (u8 (Z.of_nat n + 1)) = S n.
Proof.
  intros H. destruct (Nat.eq_dec n 255%nat) as [->|Hne]; [reflexivity|].
  rewrite u8_small by lia. unfold loop_count.
  destruct (Z.eqb_spec (Z.of_nat n + 1) 0); lia.
Qed.

Lemma take_rd (l : list Z) i :
  (i < length l)%nat -> take (S i) l = take i l ++ [rd l i].
Proof.
  intros H. destruct (lookup_lt_is_Some_2 l i H) as [x Hx].
  unfold rd. rewrite Hx. apply take_S_r, Hx.
Qed.

Lemma drop_rd (l : list Z) i :
  (i < length l)%nat -> drop i l = rd l i :: drop (S i) l.
Proof.
  intros H. destruct (lookup_lt_is_Some_2 l i H) as [x Hx].
  unfold rd. rewrite Hx. apply drop_S, Hx.
Qed.

Lemma rd_app_l (l1 l2 : list Z) i :
  (i < length l1)%nat -> rd (l1 ++ l2) i = rd l1 i.
Proof. intros H. unfold rd. rewrite lookup_app_l by assumption. reflexivity. Qed.

Lemma words_take n l : words l = true -> words (take n l) = true.
Proof.
  intros H. rewrite <- (take_drop n l) in H. apply words_app in H. tauto.
Qed.

Lemma words_drop n l : words l = true -> words (drop n l) = true.
Proof.
  intros H. rewrite <- (take_drop n l) in H. apply words_app in H. tauto.
Qed.

Lemma mod_shift_in x V m :
  0 < m -> (x + 65536 * (V mod m)) mod m = (x + 65536 * V) mod m.
Proof.
  intros H. rewrite <- Z.add_mod_idemp_r, Z.mul_mod_idemp_r, Z.add_mod_idemp_r by lia.
  reflexivity.
Qed.

(** ** Long division *)

Section Reduce.

Variable N : nat.
Hypothesis N_range : (1 <= N <= 255)%nat.

(** The divisor: [N] words, top bit set. *)
Variable b : list Z.
Hypothesis b_length : length b = N.
Hypothesis b_words : words b = true.
Hypothesis b_normalized : normalized N b = true.

Lemma divisor_split :
  exists bl v, b = bl ++ [v] /\ length bl = (N - 1)%nat /\ words bl = true /\
               32768 <= v < 65536 /\ rd b (N - 1) = v.
Proof.
  destruct (snoc_inv b (N - 1)) as (bl & v & E & L); [lia|].
  exists bl, v. pose proof b_words as W. pose proof b_normalized as Hn.
  rewrite E in W. apply words_app in W as [Wl Wv]. apply words_cons in Wv as [Hv _].
  unfold normalized in Hn. rewrite E, <- L, rd_last in Hn. apply Z.leb_le in Hn.
  repeat split; try assumption; try lia. rewrite E at 1. rewrite <- L. apply rd_last.
Qed.

Lemma divisor_bounds : 0 < val b < Bpow N /\ Bpow N <= 2 * val b /\ Bpow (N - 1) <= val b.
Proof.
  destruct divisor_split as (bl & v & E & L & Wl & Hv & _).
  pose proof (val_bound b b_words) as B. rewrite b_length in B.
  pose proof (val_bound bl Wl) as Bl. rewrite L in Bl.
  assert (EN : Bpow N = 65536 * Bpow (N - 1)).
  { rewrite <- Bpow_S. f_equal. lia. }
  assert (Ev : val b = val bl + Bpow (N - 1) * v).
  { rewrite E, val_app, L. simpl val. lia. }
  pose proof (Bpow_pos (N - 1)). nia.
Qed.

(** The round taken with [flag] clear: the partial remainder has [N] words. *)
Lemma moduu_body_clear pre d post :
  length d = N -> words d = true ->
  exists d',
    moduu_body N b (pre ++ d ++ post, length pre, false)
      = (pre ++ d' ++ post, pred (length pre), negb (rd d' (N - 1) =? 0)) /\
    length d' = N /\ words d' = true /\ val d' = val d mod val b.
Proof.
  intros Hd Wd. destruct divisor_bounds as (Hb & Hb2 & Hb1).
  pose proof (val_bound d Wd) as Bd. rewrite Hd in Bd.
  unfold moduu_body. cbv beta iota zeta.
  rewrite rd_window by lia.
  destruct (Z.eqb_spec (rd d (N - 1)) 0) as [E0|E0]; cbv beta iota zeta; cbn [negb].
  - exists d. rewrite E0. repeat split; try assumption.
    symmetry. apply Z.mod_small.
    destruct (snoc_inv d (N - 1)) as (d0 & x & E & L); [lia|].
    rewrite E, <- L, rd_last in E0. subst x.
    pose proof Wd as W. rewrite E in W. apply words_app in W as [W0 _].
    pose proof (val_bound d0 W0) as B0. rewrite L in B0.
    rewrite E, val_app. simpl val. lia.
  - rewrite mpi_cmp_window by assumption. rewrite Z.geb_leb.
    destruct (Z.leb_spec 0 (Z.sgn (val d - val b))) as [G|G].
    + apply Z.sgn_nonneg in G.
      destruct (mpi_sub_window N N_range pre d post b Hd b_length Wd b_words)
        as (d' & E & Ld & Wd' & Hv).
      rewrite E, rd_window by lia. exists d'. repeat split; try assumption.
      rewrite Hv, Z.mod_small by lia.
      apply Z.mod_unique_pos with (q := 1); lia.
    + assert (val d < val b).
      { destruct (Z.lt_ge_cases (val d) (val b)) as [?|G']; [assumption|].
        assert (0 <= Z.sgn (val d - val b)) by (apply Z.sgn_nonneg; lia). lia. }
      exists d. destruct (Z.eqb_spec (rd d (N - 1)) 0); [contradiction|].
      repeat split; try assumption. symmetry. apply Z.mod_small. lia.
Qed.

(** Adding the divisor back into the [N + 1] words of the partial
    remainder: [mpi_add] on the low [N] words, its carry into the top
    word, and bit 16 of that sum as the carry out. *)
Lemma add_back_spec pre w post :
  length w = S N -> words w = true ->
  exists w' ov c mem1,
    mpi_add N (pre ++ w ++ post) (length pre) b = (mem1, c) /\
    wr mem1 (length pre + N) (Z.land (u32 (c + rd mem1 (length pre + N))) 0xFFFF)
      = pre ++ w' ++ post /\
    (Z.land (u32 (c + rd mem1 (length pre + N))) 0x10000 =? 0) = (ov =? 0) /\
    0 <= ov <= 1 /\ length w' = S N /\ words w' = true /\
    val w' + Bpow (S N) * ov = val w + val b.
Proof.
  intros Hw Ww. apply snoc_inv in Hw as (d & t & -> & Hd).
  apply words_app in Ww as [Wd Wt]. apply words_cons in Wt as [Ht _].
  rewrite <- (app_assoc d [t] post).
  destruct (mpi_add_window N N_range pre d ([t] ++ post) b Hd b_length Wd b_words)
    as (d' & c & E & Ld & Wd' & Hc & Hv).
  exists (d' ++ [(c + t) mod 65536]), ((c + t) / 65536), c, (pre ++ d' ++ [t] ++ post).
  split; [exact E|].
  assert (R : rd (pre ++ d' ++ [t] ++ post) (length pre + N) = t).
  { rewrite (app_assoc pre d'). rewrite <- Ld, <- length_app. apply rd_mid. }
  rewrite R, (u32_small (c + t)) by lia.
  destruct (digit_carry (c + t)) as (Hm & Hq & Heq); [lia|].
  split.
  { rewrite land_FFFF, (app_assoc pre d'), <- Ld, <- length_app.
    cbn [app]. rewrite wr_mid, <- !app_assoc. reflexivity. }
  split; [apply land_bit16; lia|].
  split; [assumption|]. split; [rewrite length_snoc; lia|].
  split; [apply words_snoc; assumption|].
  rewrite !val_app, Ld, Hd. simpl val. rewrite Bpow_S. nia.
Qed.

(** The round taken with [flag] set: the partial remainder has [N + 1]
    words and is below [65536] times the divisor. *)
Lemma moduu_body_set pre w post :
  length w = S N -> words w = true -> val w < val b * 65536 ->
  exists w',
    moduu_body N b (pre ++ w ++ post, length pre, true)
      = (pre ++ w' ++ post, pred (length pre), negb (rd w' (N - 1) =? 0)) /\
    length w' = S N /\ words w' = true /\ val w' = val w mod val b.
Proof.
  intros Hw Ww Hlt. destruct divisor_bounds as (Hb & Hb2 & Hb1).
  destruct divisor_split as (bl & v & Eb & Lbl & Wbl & Hv & Rv).
  pose proof (val_bound w Ww) as Bw. rewrite Hw in Bw.
  destruct (snoc_inv w N Hw) as (d & t & Ew & Ld).
  destruct (snoc_inv d (N - 1)) as (lo & s & Ed & Llo); [lia|].
  pose proof Ww as W. rewrite Ew in W. apply words_app in W as [Wd Wt].
  apply words_cons in Wt as [Ht _]. rewrite Ed in Wd.
  apply words_app in Wd as [Wlo Ws]. apply words_cons in Ws as [Hs _].
  pose proof (val_bound lo Wlo) as Blo. rewrite Llo in Blo.
  pose proof (val_bound bl Wbl) as Bbl. rewrite Lbl in Bbl.
  assert (Rt : rd w N = t) by (rewrite Ew, <- Ld; apply rd_last).
  assert (Rs : rd w (N - 1) = s).
  { rewrite Ew, Ed, <- app_assoc, <- Llo. apply rd_mid. }
  assert (Vw : val w = val lo + Bpow (N - 1) * (t * 65536 + s)).
  { rewrite Ew, Ed, !val_app, length_app, Llo. simpl val. simpl length.
    rewrite Bpow_add. change (Bpow 1) with 65536. lia. }
  assert (Vb : val b = val bl + Bpow (N - 1) * v).
  { rewrite Eb, val_app, Lbl. simpl val. lia. }
  destruct (trial_digit_bounds (Bpow (N - 1)) v (val bl) (val b) (t * 65536 + s)
              (val lo) (val w)) as (Hq & Hup & Hdn);
    [apply Bpow_pos | lia | lia | assumption | lia | lia | assumption | assumption |].
  unfold moduu_body. cbv beta iota zeta.
  rewrite !rd_window by lia. rewrite Rt, Rs, Rv, lor_words by lia.
  set (pq := if (t * 65536 + s) / v >? 65535 then 65535 else (t * 65536 + s) / v).
  assert (Epq : pq = Z.min ((t * 65536 + s) / v) 65535).
  { unfold pq. destruct (Z.gtb_spec ((t * 65536 + s) / v) 65535); lia. }
  rewrite <- Epq in Hq, Hup, Hdn. clearbody pq.
  rewrite (u16_small pq) by lia.
  destruct (mpi_mulsubuuk_window N N_range pre w post b pq Hw b_length Ww b_words)
    as (w1 & nb & E1 & L1 & W1 & Hnb & V1); [lia|].
  rewrite E1. cbv beta iota zeta.
  pose proof (val_bound w1 W1) as B1. rewrite L1 in B1.
  destruct (Z.eqb_spec nb 0) as [Enb|Enb].
  - subst nb. rewrite Z.sub_0_r, Z.mul_1_r in V1.
    destruct (add_back_spec pre w1 post L1 W1)
      as (w2 & ov & c & mem1 & A1 & A2 & A3 & Hov & L2 & W2 & V2).
    rewrite A1. cbv beta iota zeta. rewrite A2, A3.
    pose proof (val_bound w2 W2) as B2. rewrite L2 in B2.
    destruct (Z.eqb_spec ov 0) as [Eov|Eov].
    + subst ov. rewrite Z.mul_0_r, Z.add_0_r in V2.
      destruct (add_back_spec pre w2 post L2 W2)
        as (w3 & ov3 & c3 & mem3 & A4 & A5 & _ & Hov3 & L3 & W3 & V3).
      rewrite A4. cbv beta iota zeta. rewrite A5, rd_window by lia.
      exists w3. repeat split; try assumption.
      pose proof (val_bound w3 W3) as B3. rewrite L3 in B3.
      assert (ov3 = 1) by nia. subst ov3.
      apply Z.mod_unique_pos with (q := pq - 2); nia.
    + assert (ov = 1) by lia. subst ov. rewrite rd_window by lia.
      exists w2. repeat split; try assumption.
      apply Z.mod_unique_pos with (q := pq - 1); nia.
  - assert (nb = 1) by lia. subst nb. rewrite rd_window by lia.
    exists w1. repeat split; try assumption.
    apply Z.mod_unique_pos with (q := pq); nia.
Qed.

(** The state after [k + 1] rounds: the untouched low words of the
    dividend, the remainder of the words brought down so far, and zeros. *)
Lemma moduu_rounds a :
  length a = (2 * N)%nat -> words a = true ->
  forall k, (k <= N)%nat ->
  exists r,
    Nat.iter (S k) (moduu_body N b) (a, N, false)
      = (take (N - k) a ++ r ++ replicate k 0, (N - S k)%nat,
         negb (rd r (N - 1) =? 0)) /\
    length r = N /\ words r = true /\
    val r = val (drop (N - k) a) mod val b.
Proof.
  intros La Wa. destruct divisor_bounds as (Hb & Hb2 & Hb1).
  induction k as [|k IH]; intros Hk.
  - rewrite Nat.sub_0_r. cbn [Nat.iter nat_rect].
    destruct (moduu_body_clear (take N a) (drop N a) [])
      as (d' & E & Ld & Wd & Vd);
      [rewrite length_drop; lia | apply words_drop, Wa |].
    rewrite length_take, app_nil_r, take_drop in E.
    replace (N `min` length a)%nat with N in E by lia.
    rewrite app_nil_r in E. exists d'. rewrite E.
    repeat split; try assumption. simpl. rewrite app_nil_r.
    f_equal. f_equal. lia.
  - destruct IH as (r & E & Lr & Wr & Vr); [lia|].
    rewrite Nat.iter_succ, E. clear E.
    set (i := (N - S k)%nat) in *.
    assert (Hi : (i < length a)%nat) by lia.
    replace (N - k)%nat with (S i) in * by lia.
    rewrite take_rd by assumption. rewrite (drop_rd a i) by assumption.
    pose proof (words_rd a i Wa) as Hx. set (x := rd a i) in *. clearbody x.
    assert (Lp : length (take i a) = i) by (rewrite length_take; lia).
    pose proof (Z.mod_pos_bound (val (drop (S i) a)) (val b) ltac:(lia)) as Hm.
    rewrite <- Vr in Hm. simpl val. rewrite <- mod_shift_in, <- Vr by lia.
    assert (Ep : (N - S (S k))%nat = pred (length (take i a))) by (rewrite Lp; lia).
    rewrite Ep. clear Ep.
    destruct (Z.eqb_spec (rd r (N - 1)) 0) as [E0|E0]; cbn [negb].
    + destruct (snoc_inv r (N - 1)) as (r0 & z & Er & L0); [lia|].
      rewrite Er, <- L0, rd_last in E0. subst z.
      pose proof Wr as W. rewrite Er in W. apply words_app in W as [W0 _].
      destruct (moduu_body_clear (take i a) (x :: r0) (replicate (S k) 0))
        as (d' & E & Ld & Wd & Vd);
        [simpl; lia | apply words_cons; split; assumption |].
      replace ((take i a ++ [x]) ++ r ++ replicate k 0, i, false)
        with (take i a ++ (x :: r0) ++ replicate (S k) 0, length (take i a), false)
        by (rewrite Lp, Er, <- !app_assoc; reflexivity).
      rewrite E. exists d'. repeat split; try assumption.
      rewrite Vd, Er, val_app. simpl val. f_equal. lia.
    + destruct (moduu_body_set (take i a) (x :: r) (replicate k 0))
        as (w' & E & Lw & Ww & Vw);
        [simpl; lia | apply words_cons; split; assumption | simpl val; lia |].
      replace ((take i a ++ [x]) ++ r ++ replicate k 0, i, true)
        with (take i a ++ (x :: r) ++ replicate k 0, length (take i a), true)
        by (rewrite Lp, <- !app_assoc; reflexivity).
      rewrite E. clear E.
      destruct (snoc_inv w' N Lw) as (r' & z & -> & Lr').
      apply words_app in Ww as [Wr' Wz]. apply words_cons in Wz as [Hz _].
      pose proof (val_bound r' Wr') as Br. rewrite Lr' in Br.
      pose proof (Z.mod_pos_bound (val (x :: r)) (val b) ltac:(lia)) as Hm'.
      rewrite <- Vw, val_app, Lr' in Hm'. simpl val in Hm'.
      assert (z = 0) by nia. subst z.
      rewrite val_app, Lr' in Vw. simpl val in Vw.
      exists r'. rewrite rd_app_l by lia. rewrite <- (app_assoc r').
      repeat split; try assumption. lia.
Qed.

(** What [mpi_moduu] leaves in the buffer. *)
Lemma mpi_moduu_spec a :
  length a = (2 * N)%nat -> words a = true ->
  exists r,
    mpi_moduu N a b = r ++ replicate N 0 /\
    length r = N /\ words r = true /\ val r = val a mod val b.
Proof.
  intros La Wa. unfold mpi_moduu. rewrite loop_count_u8_succ by assumption.
  destruct (moduu_rounds a La Wa N) as (r & E & Lr & Wr & Vr); [lia|].
  rewrite E, Nat.sub_diag in *. exists r. simpl. repeat split; assumption.
Qed.

End Reduce.

(** ** Schoolbook multiplication *)

Lemma rd_ge (l : list Z) i : (length l <= i)%nat -> rd l i = 0.
Proof. intros H. unfold rd. rewrite lookup_ge_None_2 by assumption. reflexivity. Qed.

Lemma low_val_take b n : low_val b n = val (take n b).
Proof.
  induction n as [|n IH]; [reflexivity|]. cbn [low_val]. rewrite IH.
  destruct (Nat.lt_ge_cases n (length b)) as [L|L].
  - rewrite take_rd, val_app, length_take by assumption. simpl val.
    replace (n `min` length b)%nat with n by lia. lia.
  - rewrite rd_ge, !take_ge by lia. lia.
Qed.

Lemma low_val_all b n : (length b <= n)%nat -> low_val b n = val b.
Proof. intros H. rewrite low_val_take, take_ge by assumption. reflexivity. Qed.

Lemma conv_nil b n : conv [] b n = 0.
Proof. induction n as [|n IH]; cbn [conv coef]; lia. Qed.

Lemma conv_cons x a b n :
  conv (x :: a) b (S n) = x * low_val b (S n) + 65536 * conv a b n.
Proof.
  induction n as [|n IH].
  - cbn [conv coef low_val]. rewrite Bpow_0. lia.
  - change (conv (x :: a) b (S (S n)))
      with (conv (x :: a) b (S n) + Bpow (S n) * coef (x :: a) b (S n)).
    rewrite IH. cbn [coef conv low_val]. rewrite !Bpow_S. lia.
Qed.

(** All the coefficients together give the product. *)
Lemma conv_val a : forall b n,
  (length a + length b <= S n)%nat -> conv a b n = val a * val b.
Proof.
  induction a as [|x a IH]; intros b n H.
  - rewrite conv_nil. reflexivity.
  - simpl length in H. destruct n as [|n].
    + destruct b; [|simpl in H; lia]. simpl. lia.
    + rewrite conv_cons, IH, low_val_all by lia. simpl val. lia.
Qed.

(** High coefficients only see the high words of [a]. *)
Lemma coef_drop b m : forall i a,
  (length b <= S m)%nat -> coef a b (i + m) = coef (drop i a) b m.
Proof.
  induction i as [|i IH]; intros a H; [reflexivity|].
  destruct a as [|x a]; [reflexivity|].
  cbn [coef drop Nat.add]. rewrite rd_ge by lia. rewrite IH by assumption. lia.
Qed.

Lemma coef_bound b : words b = true -> forall a k,
  words a = true -> 0 <= coef a b k <= Z.of_nat (length a) * 4294836225.
Proof.
  intros Wb. induction a as [|x a IH]; intros k Wa; [simpl; lia|].
  apply words_cons in Wa as [Hx Wa]. pose proof (words_rd b k Wb) as Hr.
  cbn [coef length]. rewrite Nat2Z.inj_succ.
  assert (0 <= x * rd b k <= 4294836225) by nia.
  destruct k as [|k]; [lia|]. specialize (IH k Wa). lia.
Qed.

Lemma loop_count_pos z : 0 < z -> loop_count z = Z.to_nat z.
Proof. intros H. unfold loop_count. destruct (Z.eqb_spec z 0); [lia | reflexivity]. Qed.

(** The inner loop adds one coefficient of the product to [mcarry]: it
    stops where [bb] reaches the first word of [b] or [aa] passes the
    last word of [a]. *)
Lemma mul_inner_coef a b :
  words a = true -> words b = true ->
  forall count2 mc aa bb,
  0 <= mc -> mc + Z.of_nat count2 * 4294836225 < 2 ^ 64 ->
  (count2 = S bb /\ aa + count2 <= length a)%nat \/
  (aa + count2 = length a /\ count2 <= S bb)%nat ->
  mul_inner count2 mc a aa b bb = mc + coef (drop aa a) b bb.
Proof.
  intros Wa Wb. induction count2 as [|c IH]; intros mc aa bb Hmc Hov Hc.
  - destruct Hc as [[? _]|[Ha _]]; [discriminate|].
    rewrite drop_ge by lia. simpl. lia.
  - assert (Haa : (aa < length a)%nat) by lia.
    pose proof (words_rd a aa Wa) as Hx. pose proof (words_rd b bb Wb) as Hy.
    assert (Hp : 0 <= rd a aa * rd b bb <= 4294836225) by nia.
    rewrite Nat2Z.inj_succ in Hov.
    cbn [mul_inner]. rewrite (u32_small (rd a aa * rd b bb)) by lia.
    rewrite u64_small by lia. rewrite (drop_rd a aa Haa). cbn [coef].
    destruct bb as [|bb].
    + assert (c = 0%nat) by lia. subst c. simpl. lia.
    + rewrite IH by (simpl; lia). simpl pred. lia.
Qed.

(** Storing the low word of the running sum and keeping the rest. *)
Lemma conv_step a b j out mc :
  length out = j -> val out + Bpow j * mc = conv a b j ->
  let s := mc + coef a b j in
  val (out ++ [s mod 65536]) + Bpow (S j) * (s / 65536) = conv a b (S j).
Proof.
  intros L H s. rewrite val_app, L. simpl val. cbn [conv]. rewrite Bpow_S.
  pose proof (Z.div_mod s 65536 ltac:(lia)). unfold s in *. nia.
Qed.

Lemma carry_step s :
  0 <= s < 2 ^ 48 + 256 * 4294836225 ->
  0 <= s mod 65536 < 65536 /\ 0 <= s / 65536 < 2 ^ 48.
Proof.
  intros H. pose proof (Z.mod_pos_bound s 65536 ltac:(lia)).
  split; [lia|]. split; [apply Z.div_pos; lia|].
  apply Z.div_lt_upper_bound; lia.
Qed.

Section Multiply.

Variable N : nat.
Hypothesis N_range : (2 <= N <= 255)%nat.

Variables a b : list Z.
Hypothesis a_length : length a = N.
Hypothesis b_length : length b = N.
Hypothesis a_words : words a = true.
Hypothesis b_words : words b = true.

(** The first outer loop, started at word [j] of the product. *)
Lemma mul_low_spec count : forall j out rest mc nit,
  length out = j -> (j + count <= N)%nat -> (count <= length rest)%nat ->
  nit = u8 (Z.of_nat j + 1) -> words out = true -> 0 <= mc < 2 ^ 48 ->
  val out + Bpow j * mc = conv a b j ->
  exists out' mc',
    mul_low count mc nit (out ++ rest) j a b j
      = (out' ++ drop count rest, (j + count)%nat, mc',
         u8 (Z.of_nat (j + count) + 1), (j + count)%nat) /\
    length out' = (j + count)%nat /\ words out' = true /\ 0 <= mc' < 2 ^ 48 /\
    val out' + Bpow (j + count) * mc' = conv a b (j + count).
Proof.
  induction count as [|c IH]; intros j out rest mc nit Lo Hj Hr Hn Wo Hmc Hv.
  - exists out, mc. rewrite Nat.add_0_r. simpl. subst nit. repeat split; assumption || lia.
  - destruct rest as [|x0 rest]; [simpl in Hr; lia|]. simpl in Hr.
    rewrite u8_small in Hn by lia. cbn [mul_low].
    rewrite (loop_count_pos nit) by lia.
    replace (Z.to_nat nit) with (S j) by lia.
    rewrite mul_inner_coef; [| assumption | assumption | lia | lia | lia].
    rewrite drop_0.
    pose proof (coef_bound b b_words a j a_words) as Hc. rewrite a_length in Hc.
    destruct (carry_step (mc + coef a b j)) as (Hd & Hq); [lia|].
    rewrite land_FFFF, shiftr_16, u16_small by assumption.
    rewrite wr_at by lia.
    destruct (IH (S j) (out ++ [(mc + coef a b j) mod 65536]) rest
                ((mc + coef a b j) / 65536) (u8 (nit + 1)))
      as (out' & mc' & E & Lo' & Wo' & Hmc' & Hv');
      [rewrite length_snoc; lia | lia | lia | subst nit; f_equal; lia
      | apply words_snoc; assumption
      | assumption | apply conv_step; assumption |].
    exists out', mc'. rewrite E. cbn [drop].
    replace (S j + c)%nat with (j + S c)%nat in * by lia.
    split; [reflexivity|]. repeat split; assumption || lia.
Qed.

(** The second outer loop, started at word [N + j] of the product. *)
Lemma mul_high_spec count : forall j out rest mc nit,
  length out = (N + j)%nat -> (j + count = N - 1)%nat ->
  (count <= length rest)%nat ->
  nit = Z.of_nat (N - j) -> words out = true -> 0 <= mc < 2 ^ 48 ->
  val out + Bpow (N + j) * mc = conv a b (N + j) ->
  exists out' mc',
    mul_high count mc nit (out ++ rest) (N + j) a j b (N - 1)
      = (out' ++ drop count rest, (N + j + count)%nat, mc') /\
    length out' = (N + j + count)%nat /\ words out' = true /\ 0 <= mc' < 2 ^ 48 /\
    val out' + Bpow (N + j + count) * mc' = conv a b (N + j + count).
Proof.
  induction count as [|c IH]; intros j out rest mc nit Lo Hj Hr Hn Wo Hmc Hv.
  - exists out, mc. rewrite Nat.add_0_r. simpl. repeat split; assumption || lia.
  - destruct rest as [|x0 rest]; [simpl in Hr; lia|]. simpl in Hr.
    cbn [mul_high]. rewrite (u8_small (nit - 1)) by lia.
    rewrite (loop_count_pos (nit - 1)) by lia.
    replace (Z.to_nat (nit - 1)) with (N - S j)%nat by lia.
    rewrite mul_inner_coef; [| assumption | assumption | lia | lia | lia].
    rewrite <- (coef_drop b (N - 1) (S j) a) by lia.
    replace (S j + (N - 1))%nat with (N + j)%nat by lia.
    pose proof (coef_bound b b_words a (N + j) a_words) as Hc. rewrite a_length in Hc.
    destruct (carry_step (mc + coef a b (N + j))) as (Hd & Hq); [lia|].
    rewrite land_FFFF, shiftr_16, u16_small by assumption.
    rewrite wr_at by lia.
    replace (S (N + j)) with (N + S j)%nat by lia.
    destruct (IH (S j) (out ++ [(mc + coef a b (N + j)) mod 65536]) rest
                ((mc + coef a b (N + j)) / 65536) (nit - 1))
      as (out' & mc' & E & Lo' & Wo' & Hmc' & Hv');
      [rewrite length_snoc; lia | lia | lia | lia
      | apply words_snoc; assumption
      | assumption
      | replace (N + S j)%nat with (S (N + j)) by lia; apply conv_step; assumption |].
    exists out', mc'. rewrite E. cbn [drop].
    replace (N + S j + c)%nat with (N + j + S c)%nat in * by lia.
    split; [reflexivity|]. repeat split; assumption || lia.
Qed.

(** [mpi_muluu] overwrites the first [2 * N] words of the output buffer
    with the product and leaves the rest of the buffer alone. *)
Lemma mpi_muluu_spec cm :
  (2 * N <= length cm)%nat ->
  exists ws,
    mpi_muluu N cm a b = ws ++ drop (2 * N) cm /\
    length ws = (2 * N)%nat /\ words ws = true /\ val ws = val a * val b.
Proof.
  intros Hcm. unfold mpi_muluu. rewrite loop_count_u8 by lia.
  destruct (mul_low_spec N 0%nat [] cm 0 1)
    as (out1 & mc1 & E1 & L1 & W1 & Hmc1 & V1);
    [reflexivity | lia | lia | reflexivity | reflexivity | lia | simpl; lia |].
  cbn [app] in E1. rewrite E1. clear E1. cbn [Nat.add] in *.
  rewrite (u8_small (Z.of_nat N - 1)) by lia.
  rewrite (loop_count_pos (Z.of_nat N - 1)) by lia.
  replace (Z.to_nat (Z.of_nat N - 1)) with (N - 1)%nat by lia.
  assert (En : u8 (u8 (Z.of_nat N + 1) - 1) = Z.of_nat (N - 0)).
  { destruct (Nat.eq_dec N 255%nat) as [->|Hne]; [reflexivity|].
    rewrite (u8_small (Z.of_nat N + 1)) by lia. rewrite u8_small by lia. lia. }
  replace (pred N) with (N - 1)%nat by lia.
  destruct (mul_high_spec (N - 1) 0%nat out1 (drop N cm) mc1 _
              ltac:(lia) ltac:(lia) ltac:(rewrite length_drop; lia) En W1 Hmc1)
    as (out2 & mc2 & E2 & L2 & W2 & Hmc2 & V2);
    [rewrite Nat.add_0_r; assumption|].
  rewrite Nat.add_0_r in E2. rewrite E2. clear E2.
  rewrite drop_drop in *.
  replace (N + 0 + (N - 1))%nat with (2 * N - 1)%nat in * by lia.
  rewrite conv_val in V2 by lia.
  pose proof (val_bound a a_words) as Ba. pose proof (val_bound b b_words) as Bb.
  pose proof (val_bound out2 W2) as Bo. rewrite a_length in Ba. rewrite b_length in Bb.
  rewrite L2 in Bo.
  assert (EB : Bpow N * Bpow N = 65536 * Bpow (2 * N - 1)).
  { rewrite <- Bpow_add, <- Bpow_S. f_equal. lia. }
  assert (Hmc : 0 <= mc2 < 65536) by nia.
  rewrite land_FFFF, Z.mod_small, u16_small by lia.
  assert (Hd : (N + (N - 1) < length cm)%nat) by lia.
  rewrite (drop_rd cm (N + (N - 1))) by assumption.
  rewrite wr_at by lia.
  replace (S (N + (N - 1))) with (2 * N)%nat by lia.
  exists (out2 ++ [mc2]). split; [reflexivity|].
  split; [rewrite length_snoc; lia|].
  split; [apply words_snoc; assumption|].
  rewrite val_app, L2. simpl val. lia.
Qed.

End Multiply.

(** ** Exponentiation by 65537 *)

Lemma memcpy_all (dst src : list Z) n :
  length dst = n -> memcpy dst (src ++ replicate n 0) (length src) = src ++ drop (length src) dst.
Proof. intros H. unfold memcpy. rewrite take_app_length. reflexivity. Qed.

Lemma pow_double x (i : nat) :
  x ^ 2 ^ Z.of_nat (S i) = x ^ 2 ^ Z.of_nat i * x ^ 2 ^ Z.of_nat i.
Proof.
  rewrite Nat2Z.inj_succ, Z.pow_succ_r by lia.
  rewrite (Z.mul_comm 2), Z.pow_mul_r by lia. apply Z.pow_2_r.
Qed.

Section Power.

Variable N : nat.
Hypothesis N_range : (2 <= N <= 255)%nat.

(** The modulus: [N] words, top bit set. *)
Variable n : list Z.
Hypothesis n_length : length n = N.
Hypothesis n_words : words n = true.
Hypothesis n_normalized : normalized N n = true.

Lemma modulus_bounds : 1 < val n < Bpow N.
Proof.
  destruct (divisor_bounds N ltac:(lia) n n_length n_words n_normalized) as (H1 & H2 & H3).
  assert (Bpow N = 65536 * (65536 * Bpow (N - 2))).
  { rewrite <- !Bpow_S. f_equal. lia. }
  pose proof (Bpow_pos (N - 2)). lia.
Qed.

(** A multiplication into [bufprod] followed by a reduction of [bufprod]. *)
Lemma mul_then_mod bufprod x y :
  length bufprod = (2 * N)%nat ->
  length x = N -> length y = N -> words x = true -> words y = true ->
  exists r,
    mpi_moduu N (mpi_muluu N bufprod x y) n = r ++ replicate N 0 /\
    length r = N /\ words r = true /\ val r = (val x * val y) mod val n.
Proof.
  intros Lp Lx Ly Wx Wy.
  destruct (mpi_muluu_spec N N_range x y Lx Ly Wx Wy bufprod) as (ws & E & Lw & Ww & Vw);
    [lia|].
  rewrite drop_ge, app_nil_r in E by lia. rewrite E, <- Vw.
  apply mpi_moduu_spec; try assumption. lia.
Qed.

Lemma square_round_spec bufprod bufmod :
  length bufprod = (2 * N)%nat -> length bufmod = N -> words bufmod = true ->
  exists bp bm,
    square_round N n (bufprod, bufmod) = (bp, bm) /\
    length bp = (2 * N)%nat /\ length bm = N /\ words bm = true /\
    val bm = (val bufmod * val bufmod) mod val n.
Proof.
  intros Lp Lm Wm. unfold square_round.
  destruct (mul_then_mod bufprod bufmod bufmod Lp Lm Lm Wm Wm) as (r & E & Lr & Wr & Vr).
  assert (E1 : memcpy bufmod (r ++ replicate N 0) N = r).
  { rewrite <- Lr at 2. rewrite memcpy_all, drop_ge, app_nil_r by lia. reflexivity. }
  rewrite E, E1. exists (r ++ replicate N 0), r.
  repeat split; try assumption. rewrite length_app, length_replicate. lia.
Qed.

Lemma square_rounds i : forall bufprod bufmod,
  length bufprod = (2 * N)%nat -> length bufmod = N -> words bufmod = true ->
  exists bp bm,
    Nat.iter i (square_round N n) (bufprod, bufmod) = (bp, bm) /\
    length bp = (2 * N)%nat /\ length bm = N /\ words bm = true /\
    val bm mod val n = val bufmod ^ 2 ^ Z.of_nat i mod val n.
Proof.
  induction i as [|i IH]; intros bufprod bufmod Lp Lm Wm.
  - exists bufprod, bufmod. simpl. rewrite Z.pow_1_r. repeat split; assumption.
  - destruct (IH bufprod bufmod Lp Lm Wm) as (bp & bm & E & Lbp & Lbm & Wbm & Vbm).
    rewrite Nat.iter_succ, E.
    destruct (square_round_spec bp bm Lbp Lbm Wbm) as (bp' & bm' & E' & L1 & L2 & W' & V').
    exists bp', bm'. repeat split; try assumption.
    pose proof modulus_bounds as Hn.
    rewrite V', Z.mod_mod, pow_double by lia.
    rewrite Z.mul_mod, Vbm, <- Z.mul_mod by lia.
    reflexivity.
Qed.

(** What [mpi_powm65537] leaves in [m], whatever the stack buffers held. *)
Lemma mpi_powm65537_spec bufprod bufmod m :
  length bufprod = (2 * N)%nat -> length bufmod = N ->
  length m = N -> words m = true ->
  let r := mpi_powm65537 N bufprod bufmod m n in
  length r = N /\ words r = true /\ val r = val m ^ 65537 mod val n.
Proof.
  intros Lp Lb Lm Wm. unfold mpi_powm65537.
  pose proof modulus_bounds as Hn.
  assert (E0 : memcpy bufmod m N = m).
  { unfold memcpy. rewrite take_ge, drop_ge, app_nil_r by lia. reflexivity. }
  rewrite E0. change (loop_count 16) with 16%nat.
  destruct (square_rounds 16 bufprod m Lp Lm Wm) as (bp & bm & E & Lbp & Lbm & Wbm & Vbm).
  rewrite E.
  destruct (mul_then_mod bp bm m Lbp Lbm Lm Wbm Wm) as (r & E' & Lr & Wr & Vr).
  assert (E1 : memcpy m (r ++ replicate N 0) N = r).
  { rewrite <- Lr at 2. rewrite memcpy_all, drop_ge, app_nil_r by lia. reflexivity. }
  rewrite E', E1. cbv zeta.
  split; [exact Lr|]. split; [exact Wr|].
  rewrite Vr. change 65537 with (2 ^ Z.of_nat 16 + 1).
  rewrite Z.pow_add_r, Z.pow_1_r by lia.
  rewrite Z.mul_mod, Vbm, <- Z.mul_mod by lia. reflexivity.
Qed.

End Power.

(** ** Operations on a whole buffer *)

Lemma number_iff n l : number n l = true <-> length l = n /\ words l = true.
Proof. unfold number. rewrite andb_true_iff, Nat.eqb_eq. tauto. Qed.

Lemma number_intro n l : length l = n -> words l = true -> number n l = true.
Proof. intros. apply number_iff. split; assumption. Qed.

Lemma pow2_Bpow (n : nat) : 2 ^ (16 * Z.of_nat n) = Bpow n.
Proof. symmetry. apply Bpow_two. Qed.

Section Whole.

Variable N : nat.
Hypothesis N_range : (1 <= N <= 255)%nat.

Lemma mpi_add_whole d src :
  number N d = true -> number N src = true ->
  exists d' c,
    mpi_add N d 0 src = (d', c) /\ number N d' = true /\ 0 <= c <= 1 /\
    val d' + Bpow N * c = val d + val src.
Proof.
  intros [Ld Wd]%number_iff [Ls Ws]%number_iff.
  destruct (mpi_add_window N N_range [] d [] src Ld Ls Wd Ws)
    as (d' & c & E & L' & W' & Hc & Hv).
  cbn [app length] in E. rewrite !app_nil_r in E.
  exists d', c. split; [exact E|]. split; [apply number_intro; assumption|].
  split; assumption.
Qed.

Lemma mpi_sub_whole d src :
  number N d = true -> number N src = true ->
  number N (mpi_sub N d 0 src) = true /\
  val (mpi_sub N d 0 src) = (val d - val src) mod Bpow N.
Proof.
  intros [Ld Wd]%number_iff [Ls Ws]%number_iff.
  destruct (mpi_sub_window N N_range [] d [] src Ld Ls Wd Ws)
    as (d' & E & L' & W' & Hv).
  cbn [app length] in E. rewrite !app_nil_r in E. rewrite E.
  split; [apply number_intro; assumption | exact Hv].
Qed.

Lemma mpi_cmp_whole d src :
  number N d = true -> number N src = true ->
  mpi_cmp N d 0 src = Z.sgn (val d - val src).
Proof.
  intros [Ld Wd]%number_iff [Ls Ws]%number_iff.
  pose proof (mpi_cmp_window N N_range [] d [] src Ld Ls Wd Ws) as E.
  cbn [app length] in E. rewrite app_nil_r in E. exact E.
Qed.

(** Subtracting what was added gives the first operand back, carry or not. *)
Lemma sub_add_cancel a b :
  number N a = true -> number N b = true ->
  mpi_sub N (fst (mpi_add N a 0 b)) 0 b = a.
Proof.
  intros Ha Hb. destruct (mpi_add_whole a b Ha Hb) as (d & c & E & Hd & Hc & Hv).
  rewrite E. cbn [fst].
  destruct (mpi_sub_whole d b Hd Hb) as (Hs & Vs).
  apply number_iff in Ha as [La Wa]. apply number_iff in Hs as [Ls Ws].
  apply val_inj; [lia | assumption | assumption |].
  pose proof (val_bound a Wa) as Ba. rewrite La in Ba.
  rewrite Vs. symmetry. apply Z.mod_unique_pos with (q := - c); lia.
Qed.

End Whole.

(** * Concrete runs *)

(** The carry out of the top word. *)
Example add_all_ones : mpi_add 2 [65535; 65535] 0 [1; 0] = ([0; 0], 1).
Proof. reflexivity. Qed.

(** A round of the division in which the divisor is added back twice. *)
Example moduu_two_corrections :
  mpi_moduu 2 [65535; 65535; 0; 57535] [65452; 48676] = [16071; 38623; 0; 0].
Proof. vm_compute. reflexivity. Qed.

(** The contents of the output buffer do not matter to the product. *)
Example muluu_max :
  mpi_muluu 2 [1; 2; 3; 4] [65535; 65535] [65535; 65535] = [1; 0; 65534; 65535].
Proof. vm_compute. reflexivity. Qed.

(** * The contracts of the routines *)

(** C5. For single-width [dest] and [src], [mpi_add] stores
    [(dest + src) mod 2^(16 N)] into [dest] and returns carry 1 exactly
    when the true sum exceeds [2^(16 N) - 1], and 0 otherwise; adding 1
    to the all-0xFFFF operand returns carry 1. *)
Theorem mpi_add_carry (N : nat) (dest src : list Z) :
  (1 <= N <= 255)%nat -> number N dest = true -> number N src = true ->
  let r := mpi_add N dest 0 src in
  number N (fst r) = true /\
  val (fst r) = (val dest + val src) mod 2 ^ (16 * Z.of_nat N) /\
  (snd r = 1 <-> val dest + val src > 2 ^ (16 * Z.of_nat N) - 1) /\
  (snd r = 0 <-> val dest + val src <= 2 ^ (16 * Z.of_nat N) - 1) /\
  (val dest = 2 ^ (16 * Z.of_nat N) - 1 -> val src = 1 -> snd r = 1).
Proof.
  intros HN Hd Hs r. subst r. rewrite pow2_Bpow.
  destruct (mpi_add_whole N HN dest src Hd Hs) as (d' & c & E & Hd' & Hc & Hv).
  rewrite E. cbn [fst snd].
  pose proof Hd' as [L' W']%number_iff.
  pose proof (val_bound d' W') as B'. rewrite L' in B'.
  pose proof (Bpow_pos N) as BN.
  split; [assumption|].
  split; [apply Z.mod_unique_pos with (q := c); lia|].
  assert (c = 0 \/ c = 1) as [-> | ->] by lia; repeat split; intros; lia.
Qed.

Lemma example_add_carry :
  let r := mpi_add 2 [65535; 65535] 0 [1; 0] in
  number 2 (fst r) = true /\
  val (fst r) = (val [65535; 65535] + val [1; 0]) mod 2 ^ (16 * Z.of_nat 2) /\
  (snd r = 1 <-> val [65535; 65535] + val [1; 0] > 2 ^ (16 * Z.of_nat 2) - 1) /\
  (snd r = 0 <-> val [65535; 65535] + val [1; 0] <= 2 ^ (16 * Z.of_nat 2) - 1) /\
  (val [65535; 65535] = 2 ^ (16 * Z.of_nat 2) - 1 -> val [1; 0] = 1 -> snd r = 1).
Proof.
  apply (mpi_add_carry 2 [65535; 65535] [1; 0]); [lia | reflexivity | reflexivity].
Defined.

(** C6. For single-width [a] and [b] whose sum does not overflow
    ([mpi_add] returns carry 0), subtracting [b] from the result of the
    addition restores [a]. *)
Theorem mpi_sub_add_inverse (N : nat) (a b : list Z) :
  (1 <= N <= 255)%nat -> number N a = true -> number N b = true ->
  snd (mpi_add N a 0 b) = 0 ->
  mpi_sub N (fst (mpi_add N a 0 b)) 0 b = a.
Proof. intros HN Ha Hb _. apply sub_add_cancel; assumption. Qed.

Lemma example_sub_add_inverse :
  mpi_sub 2 (fst (mpi_add 2 [65535; 7] 0 [3; 9])) 0 [3; 9] = [65535; 7].
Proof.
  apply (mpi_sub_add_inverse 2 [65535; 7] [3; 9]);
    [lia | reflexivity | reflexivity | reflexivity].
Defined.

(** C7. For single-width [a] and [b], [mpi_cmp] returns the sign of
    [a - b] as unsigned integers; comparing in the other order negates the
    result, and a number compares equal to itself. *)
Theorem mpi_cmp_sign (N : nat) (a b : list Z) :
  (1 <= N <= 255)%nat -> number N a = true -> number N b = true ->
  mpi_cmp N a 0 b = Z.sgn (val a - val b) /\
  mpi_cmp N b 0 a = - mpi_cmp N a 0 b /\
  mpi_cmp N a 0 a = 0.
Proof.
  intros HN Ha Hb. rewrite !mpi_cmp_whole by assumption.
  split; [reflexivity|]. split.
  - rewrite <- Z.sgn_opp. f_equal. lia.
  - rewrite Z.sub_diag. reflexivity.
Qed.

Lemma example_cmp_sign :
  mpi_cmp 2 [5; 7] 0 [6; 7] = Z.sgn (val [5; 7] - val [6; 7]) /\
  mpi_cmp 2 [6; 7] 0 [5; 7] = - mpi_cmp 2 [5; 7] 0 [6; 7] /\
  mpi_cmp 2 [5; 7] 0 [5; 7] = 0.
Proof.
  apply (mpi_cmp_sign 2 [5; 7] [6; 7]); [lia | reflexivity | reflexivity].
Defined.

(** C10. With no precondition on the operands, [mpi_sub] stores
    [(dest - src) mod 2^(16 N)] into [dest], wrapping around when
    [dest < src]; so subtracting [src] after adding it restores [dest]
    even when the addition overflowed. *)
Theorem mpi_sub_wraps (N : nat) (dest src : list Z) :
  (1 <= N <= 255)%nat -> number N dest = true -> number N src = true ->
  number N (mpi_sub N dest 0 src) = true /\
  val (mpi_sub N dest 0 src) = (val dest - val src) mod 2 ^ (16 * Z.of_nat N) /\
  mpi_sub N (fst (mpi_add N dest 0 src)) 0 src = dest.
Proof.
  intros HN Hd Hs. rewrite pow2_Bpow.
  destruct (mpi_sub_whole N HN dest src Hd Hs) as (H1 & H2).
  split; [assumption|]. split; [assumption|]. apply sub_add_cancel; assumption.
Qed.

Lemma example_sub_wraps :
  number 2 (mpi_sub 2 [0; 0] 0 [1; 0]) = true /\
  val (mpi_sub 2 [0; 0] 0 [1; 0]) = (val [0; 0] - val [1; 0]) mod 2 ^ (16 * Z.of_nat 2) /\
  mpi_sub 2 (fst (mpi_add 2 [0; 0] 0 [1; 0])) 0 [1; 0] = [0; 0].
Proof.
  apply (mpi_sub_wraps 2 [0; 0] [1; 0]); [lia | reflexivity | reflexivity].
Defined.

(** C4, as the code has it.  For an accumulator [c] of [N + 1] words,
    single-width [a] and a word [b], [mpi_mulsubuuk] updates [c] to
    [c - a * b] modulo [2^(16 (N + 1))] and returns the negated borrow:
    0 exactly when the old [c] is less than [a * b], 1 exactly when the
    subtraction did not underflow. *)
Theorem mpi_mulsubuuk_nborrow (N : nat) (c a : list Z) (b : Z) :
  (1 <= N <= 255)%nat -> number (S N) c = true -> number N a = true ->
  0 <= b < 65536 ->
  let r := mpi_mulsubuuk N c 0 a b in
  number (S N) (fst r) = true /\
  val (fst r) = (val c - val a * b) mod 2 ^ (16 * Z.of_nat (S N)) /\
  (snd r = 0 <-> val c < val a * b) /\
  (snd r = 1 <-> val a * b <= val c).
Proof.
  intros HN [Lc Wc]%number_iff [La Wa]%number_iff Hb r. subst r. rewrite pow2_Bpow.
  destruct (mpi_mulsubuuk_window N HN [] c [] a b Lc La Wc Wa Hb)
    as (w' & nb & E & L' & W' & Hnb & Hv).
  cbn [app length] in E. rewrite !app_nil_r in E. rewrite E. cbn [fst snd].
  pose proof (val_bound w' W') as B'. rewrite L' in B'.
  pose proof (val_bound c Wc) as Bc. rewrite Lc in Bc.
  pose proof (val_bound a Wa) as Ba. rewrite La in Ba.
  assert (Hab : 0 <= val a * b < Bpow (S N)) by (rewrite Bpow_S; nia).
  split; [apply number_intro; assumption|].
  split; [apply Z.mod_unique_pos with (q := nb - 1); lia|].
  assert (nb = 0 \/ nb = 1) as [-> | ->] by lia; repeat split; intros; lia.
Qed.

Lemma example_mulsubuuk :
  let r := mpi_mulsubuuk 2 [5; 7; 9] 0 [65535; 65535] 65535 in
  number 3 (fst r) = true /\
  val (fst r) = (val [5; 7; 9] - val [65535; 65535] * 65535) mod 2 ^ (16 * Z.of_nat 3) /\
  (snd r = 0 <-> val [5; 7; 9] < val [65535; 65535] * 65535) /\
  (snd r = 1 <-> val [65535; 65535] * 65535 <= val [5; 7; 9]).
Proof.
  apply (mpi_mulsubuuk_nborrow 2 [5; 7; 9] [65535; 65535] 65535);
    [lia | reflexivity | reflexivity | lia].
Defined.

(** C4, as the claim has it, fails: on [c = 5], [a = 1], [b = 1] the
    subtraction does not underflow and the returned flag is set. *)
Lemma flag_set_without_borrow :
  ~ (snd (mpi_mulsubuuk 2 [5; 0; 0] 0 [1; 0] 1) <> 0 <->
     val [5; 0; 0] < val [1; 0] * 1).
Proof.
  intros [H _].
  assert (X : val [5; 0; 0] < val [1; 0] * 1) by (apply H; vm_compute; discriminate).
  vm_compute in X. discriminate X.
Qed.

(** C2. For a dividend [a] of [2 N] words and a normalized single-width
    divisor [b], after [mpi_moduu] the low [N] words of the buffer hold
    [a mod b], which is below [b]. *)
Theorem mpi_moduu_remainder (N : nat) (a b : list Z) :
  (1 <= N <= 255)%nat -> number (2 * N) a = true -> number N b = true ->
  normalized N b = true ->
  let r := take N (mpi_moduu N a b) in
  number N r = true /\ 0 < val b /\ val r = val a mod val b /\ val r < val b.
Proof.
  intros HN [La Wa]%number_iff [Lb Wb]%number_iff Hn r. subst r.
  destruct (mpi_moduu_spec N HN b Lb Wb Hn a La Wa) as (r & E & Lr & Wr & Vr).
  destruct (divisor_bounds N HN b Lb Wb Hn) as (Hb & _).
  rewrite E, take_app_length' by (symmetry; exact Lr).
  split; [apply number_intro; assumption|]. split; [lia|].
  split; [exact Vr|]. rewrite Vr. apply Z.mod_pos_bound. lia.
Qed.

Lemma example_moduu_remainder :
  let r := take 2 (mpi_moduu 2 [12345; 6789; 1011; 65535] [1213; 32768]) in
  number 2 r = true /\ 0 < val [1213; 32768] /\
  val r = val [12345; 6789; 1011; 65535] mod val [1213; 32768] /\
  val r < val [1213; 32768].
Proof.
  apply (mpi_moduu_remainder 2 [12345; 6789; 1011; 65535] [1213; 32768]);
    [lia | reflexivity | reflexivity | reflexivity].
Defined.

(** C9. After [mpi_moduu] the upper [N] words of the buffer are zero: the
    buffer holds the remainder zero-extended to [2 N] words. *)
Theorem mpi_moduu_upper_zero (N : nat) (a b : list Z) :
  (1 <= N <= 255)%nat -> number (2 * N) a = true -> number N b = true ->
  normalized N b = true ->
  number (2 * N) (mpi_moduu N a b) = true /\
  drop N (mpi_moduu N a b) = replicate N 0 /\
  (forall i, (N <= i < 2 * N)%nat -> rd (mpi_moduu N a b) i = 0) /\
  val (mpi_moduu N a b) = val a mod val b.
Proof.
  intros HN [La Wa]%number_iff [Lb Wb]%number_iff Hn.
  destruct (mpi_moduu_spec N HN b Lb Wb Hn a La Wa) as (r & E & Lr & Wr & Vr).
  rewrite E. split; [|split; [|split]].
  - apply number_intro.
    + rewrite length_app, length_replicate. lia.
    + apply words_app. split; [assumption | apply words_replicate].
  - apply drop_app_length'. symmetry. exact Lr.
  - intros i Hi. replace i with (length r + (i - N))%nat by lia.
    rewrite rd_app_r. unfold rd. rewrite lookup_replicate_2 by lia. reflexivity.
  - rewrite val_app, val_replicate. lia.
Qed.

Lemma example_moduu_upper_zero :
  number (2 * 2) (mpi_moduu 2 [12345; 6789; 1011; 65535] [1213; 32768]) = true /\
  drop 2 (mpi_moduu 2 [12345; 6789; 1011; 65535] [1213; 32768]) = replicate 2 0 /\
  (forall i, (2 <= i < 2 * 2)%nat ->
     rd (mpi_moduu 2 [12345; 6789; 1011; 65535] [1213; 32768]) i = 0) /\
  val (mpi_moduu 2 [12345; 6789; 1011; 65535] [1213; 32768])
    = val [12345; 6789; 1011; 65535] mod val [1213; 32768].
Proof.
  apply (mpi_moduu_upper_zero 2 [12345; 6789; 1011; 65535] [1213; 32768]);
    [lia | reflexivity | reflexivity | reflexivity].
Defined.

(** C8. Reducing a single-width [v] that is already below the normalized
    modulus [n], zero-extended to double width, leaves [v] in the low [N]
    words. *)
Theorem mpi_moduu_reduced_fixed (N : nat) (v n : list Z) :
  (1 <= N <= 255)%nat -> number N v = true -> number N n = true ->
  normalized N n = true -> val v < val n ->
  take N (mpi_moduu N (v ++ replicate N 0) n) = v.
Proof.
  intros HN [Lv Wv]%number_iff [Ln Wn]%number_iff Hn Hlt.
  destruct (mpi_moduu_spec N HN n Ln Wn Hn (v ++ replicate N 0)) as (r & E & Lr & Wr & Vr).
  - rewrite length_app, length_replicate. lia.
  - apply words_app. split; [assumption | apply words_replicate].
  - rewrite E, take_app_length' by (symmetry; exact Lr).
    apply val_inj; [lia | assumption | assumption |].
    rewrite Vr, val_app, val_replicate, Z.mul_0_r, Z.add_0_r.
    apply Z.mod_small. pose proof (val_bound v Wv). lia.
Qed.

Lemma example_moduu_reduced_fixed :
  take 2 (mpi_moduu 2 ([1212; 32768] ++ replicate 2 0) [1213; 32768]) = [1212; 32768].
Proof.
  apply (mpi_moduu_reduced_fixed 2 [1212; 32768] [1213; 32768]);
    [lia | reflexivity | reflexivity | reflexivity | reflexivity].
Defined.

(** C3. For single-width [a] and [b], [mpi_muluu] writes exactly the
    first [2 N] words of the output buffer, and these words hold the exact
    product [a * b]; a zero operand gives [2 N] zero words. *)
Theorem mpi_muluu_product (N : nat) (c a b : list Z) :
  (2 <= N <= 255)%nat -> (2 * N <= length c)%nat ->
  number N a = true -> number N b = true ->
  let p := take (2 * N) (mpi_muluu N c a b) in
  number (2 * N) p = true /\
  val p = val a * val b /\
  drop (2 * N) (mpi_muluu N c a b) = drop (2 * N) c /\
  (val a = 0 \/ val b = 0 -> p = replicate (2 * N) 0).
Proof.
  intros HN Hc [La Wa]%number_iff [Lb Wb]%number_iff p. subst p.
  destruct (mpi_muluu_spec N HN a b La Lb Wa Wb c Hc) as (ws & E & Lw & Ww & Vw).
  rewrite E, take_app_length', drop_app_length' by (symmetry; exact Lw).
  split; [apply number_intro; assumption|]. split; [exact Vw|].
  split; [reflexivity|]. intros H0.
  apply val_inj; [rewrite length_replicate; exact Lw | assumption
                 | apply words_replicate |].
  rewrite Vw, val_replicate. nia.
Qed.

Lemma example_muluu_product :
  let p := take (2 * 2) (mpi_muluu 2 [9; 9; 9; 9; 7] [65535; 65535] [65535; 65535]) in
  number (2 * 2) p = true /\
  val p = val [65535; 65535] * val [65535; 65535] /\
  drop (2 * 2) (mpi_muluu 2 [9; 9; 9; 9; 7] [65535; 65535] [65535; 65535])
    = drop (2 * 2) [9; 9; 9; 9; 7] /\
  (val [65535; 65535] = 0 \/ val [65535; 65535] = 0 -> p = replicate (2 * 2) 0).
Proof.
  apply (mpi_muluu_product 2 [9; 9; 9; 9; 7] [65535; 65535] [65535; 65535]);
    [lia | simpl; lia | reflexivity | reflexivity].
Defined.

(** C1. For single-width [m] and a normalized single-width modulus [n],
    [mpi_powm65537] overwrites [m] with [m ^ 65537 mod n], whatever the two
    stack buffers held on entry; [m = 0] gives 0 and [m = 1] gives 1. *)
Theorem mpi_powm65537_correct (N : nat) (bufprod bufmod m n : list Z) :
  (2 <= N <= 255)%nat ->
  length bufprod = (2 * N)%nat -> length bufmod = N ->
  number N m = true -> number N n = true -> normalized N n = true ->
  let r := mpi_powm65537 N bufprod bufmod m n in
  number N r = true /\
  val r = val m ^ 65537 mod val n /\
  (val m = 0 -> val r = 0) /\
  (val m = 1 -> val r = 1).
Proof.
  intros HN Lp Lb [Lm Wm]%number_iff [Ln Wn]%number_iff Hn r.
  destruct (mpi_powm65537_spec N HN n Ln Wn Hn bufprod bufmod m Lp Lb Lm Wm)
    as (Lr & Wr & Vr).
  fold r in Lr, Wr, Vr. clearbody r.
  pose proof (modulus_bounds N HN n Ln Wn Hn) as Bn.
  split; [apply number_intro; assumption|]. split; [exact Vr|]. split.
  - intros E. rewrite Vr, E, Z.pow_0_l by lia. apply Z.mod_0_l. lia.
  - intros E. rewrite Vr, E, Z.pow_1_l by lia. apply Z.mod_1_l. lia.
Qed.

Lemma example_powm65537 :
  let r := mpi_powm65537 2 [1; 2; 3; 4] [5; 6] [5; 0] [211; 40000] in
  number 2 r = true /\
  val r = val [5; 0] ^ 65537 mod val [211; 40000] /\
  (val [5; 0] = 0 -> val r = 0) /\
  (val [5; 0] = 1 -> val r = 1).
Proof.
  apply (mpi_powm65537_correct 2 [1; 2; 3; 4] [5; 6] [5; 0] [211; 40000]);
    [lia | reflexivity | reflexivity | reflexivity | reflexivity | reflexivity].
Defined.

(** * Further properties of the routines *)

(** ** Windows of a buffer *)

Lemma window_split (mem : list Z) dest n :
  (dest + n <= length mem)%nat ->
  mem = take dest mem ++ take n (drop dest mem) ++ drop (dest + n) mem /\
  length (take dest mem) = dest /\ length (take n (drop dest mem)) = n.
Proof.
  intros H. split; [|split].
  - rewrite <- drop_drop, take_drop, take_drop. reflexivity.
  - rewrite length_take. lia.
  - rewrite length_take, length_drop. lia.
Qed.

Lemma window_parts (pre d post : list Z) :
  take (length pre) (pre ++ d ++ post) = pre /\
  take (length d) (drop (length pre) (pre ++ d ++ post)) = d /\
  drop (length pre + length d) (pre ++ d ++ post) = post.
Proof.
  split; [|split].
  - apply take_app_length.
  - rewrite drop_app_length. apply take_app_length.
  - rewrite <- drop_drop, drop_app_length. apply drop_app_length.
Qed.

(** The outcome of writing a window [d'] of the same width over the window
    at [dest]. *)
Lemma window_written (mem : list Z) dest n d' :
  (dest + n <= length mem)%nat -> length d' = n ->
  let out := take dest mem ++ d' ++ drop (dest + n) mem in
  length out = length mem /\ take dest out = take dest mem /\
  take n (drop dest out) = d' /\ drop (dest + n) out = drop (dest + n) mem.
Proof.
  intros H L out. destruct (window_split mem dest n H) as (_ & Lp & _).
  destruct (window_parts (take dest mem) d' (drop (dest + n) mem)) as (P1 & P2 & P3).
  rewrite Lp in P1, P2, P3. rewrite L in P2, P3. subst out.
  split; [|split; [|split]]; try assumption.
  rewrite !length_app, Lp, L, length_drop. lia.
Qed.

(** ** The carry and borrow primitives inside a buffer *)

(** X1. [mpi_add] at word [dest] of a longer buffer replaces the [N] words
    at [dest] by the low [N] words of the sum, returns the carry out of
    them, and leaves every other word of the buffer as it was. *)
Theorem mpi_add_in_place (N : nat) (mem : list Z) (dest : nat) (src : list Z) :
  (1 <= N <= 255)%nat -> (dest + N <= length mem)%nat ->
  words (take N (drop dest mem)) = true -> number N src = true ->
  let r := mpi_add N mem dest src in
  length (fst r) = length mem /\
  take dest (fst r) = take dest mem /\
  drop (dest + N) (fst r) = drop (dest + N) mem /\
  words (take N (drop dest (fst r))) = true /\
  (snd r = 0 \/ snd r = 1) /\
  val (take N (drop dest (fst r))) + 2 ^ (16 * Z.of_nat N) * snd r
    = val (take N (drop dest mem)) + val src.
Proof.
  intros HN Hm Wd [Ls Ws]%number_iff r. subst r. rewrite pow2_Bpow.
  destruct (window_split mem dest N Hm) as (Em & Lp & Ld).
  destruct (mpi_add_window N HN (take dest mem) (take N (drop dest mem))
              (drop (dest + N) mem) src Ld Ls Wd Ws)
    as (d' & c & E & L' & W' & Hc & Hv).
  rewrite Lp, <- Em in E. rewrite E. cbn [fst snd].
  destruct (window_written mem dest N d' Hm L') as (F1 & F2 & F3 & F4).
  rewrite F3. repeat split; try assumption; lia.
Qed.

Lemma example_add_in_place :
  let r := mpi_add 2 [7; 65535; 65535; 9] 1 [1; 0] in
  length (fst r) = length [7; 65535; 65535; 9] /\
  take 1 (fst r) = take 1 [7; 65535; 65535; 9] /\
  drop (1 + 2) (fst r) = drop (1 + 2) [7; 65535; 65535; 9] /\
  words (take 2 (drop 1 (fst r))) = true /\
  (snd r = 0 \/ snd r = 1) /\
  val (take 2 (drop 1 (fst r))) + 2 ^ (16 * Z.of_nat 2) * snd r
    = val (take 2 (drop 1 [7; 65535; 65535; 9])) + val [1; 0].
Proof.
  apply (mpi_add_in_place 2 [7; 65535; 65535; 9] 1 [1; 0]);
    [lia | simpl; lia | reflexivity | reflexivity].
Defined.

(** X2. [mpi_sub] at word [dest] of a longer buffer replaces the [N] words
    at [dest] by the difference modulo [2^(16 N)] and leaves every other
    word of the buffer as it was. *)
Theorem mpi_sub_in_place (N : nat) (mem : list Z) (dest : nat) (src : list Z) :
  (1 <= N <= 255)%nat -> (dest + N <= length mem)%nat ->
  words (take N (drop dest mem)) = true -> number N src = true ->
  let out := mpi_sub N mem dest src in
  length out = length mem /\
  take dest out = take dest mem /\
  drop (dest + N) out = drop (dest + N) mem /\
  words (take N (drop dest out)) = true /\
  val (take N (drop dest out))
    = (val (take N (drop dest mem)) - val src) mod 2 ^ (16 * Z.of_nat N).
Proof.
  intros HN Hm Wd [Ls Ws]%number_iff out. subst out. rewrite pow2_Bpow.
  destruct (window_split mem dest N Hm) as (Em & Lp & Ld).
  destruct (mpi_sub_window N HN (take dest mem) (take N (drop dest mem))
              (drop (dest + N) mem) src Ld Ls Wd Ws)
    as (d' & E & L' & W' & Hv).
  rewrite Lp, <- Em in E. rewrite E.
  destruct (window_written mem dest N d' Hm L') as (F1 & F2 & F3 & F4).
  rewrite F3. repeat split; assumption.
Qed.

Lemma example_sub_in_place :
  let out := mpi_sub 2 [7; 0; 0; 9] 1 [1; 0] in
  length out = length [7; 0; 0; 9] /\
  take 1 out = take 1 [7; 0; 0; 9] /\
  drop (1 + 2) out = drop (1 + 2) [7; 0; 0; 9] /\
  words (take 2 (drop 1 out)) = true /\
  val (take 2 (drop 1 out))
    = (val (take 2 (drop 1 [7; 0; 0; 9])) - val [1; 0]) mod 2 ^ (16 * Z.of_nat 2).
Proof.
  apply (mpi_sub_in_place 2 [7; 0; 0; 9] 1 [1; 0]);
    [lia | simpl; lia | reflexivity | reflexivity].
Defined.

(** X3. When [mpi_cmp] reports [dest >= src], [mpi_sub] gives the exact
    difference: this is the pair of calls the division makes while the
    partial remainder has [N] words. *)
Theorem mpi_sub_after_cmp (N : nat) (dest src : list Z) :
  (1 <= N <= 255)%nat -> number N dest = true -> number N src = true ->
  0 <= mpi_cmp N dest 0 src ->
  val (mpi_sub N dest 0 src) = val dest - val src.
Proof.
  intros HN Hd Hs Hc. rewrite mpi_cmp_whole in Hc by assumption.
  apply Z.sgn_nonneg in Hc.
  destruct (mpi_sub_whole N HN dest src Hd Hs) as (_ & Hv). rewrite Hv.
  apply number_iff in Hd as [Ld Wd]. apply number_iff in Hs as [Ls Ws].
  pose proof (val_bound dest Wd) as Bd. rewrite Ld in Bd.
  pose proof (val_bound src Ws) as Bs.
  apply Z.mod_small. lia.
Qed.

Lemma example_sub_after_cmp :
  val (mpi_sub 2 [3; 9] 0 [65535; 7]) = val [3; 9] - val [65535; 7].
Proof.
  apply (mpi_sub_after_cmp 2 [3; 9] [65535; 7]);
    [lia | reflexivity | reflexivity | vm_compute; discriminate].
Defined.

(** X4. Adding [src] back after subtracting it restores [dest] for all
    operands, and the carry of that addition is the borrow the subtraction
    dropped: it is 1 exactly when [dest < src]. *)
Theorem mpi_add_after_sub (N : nat) (dest src : list Z) :
  (1 <= N <= 255)%nat -> number N dest = true -> number N src = true ->
  let r := mpi_add N (mpi_sub N dest 0 src) 0 src in
  fst r = dest /\ (snd r = 1 <-> val dest < val src) /\
  (snd r = 0 <-> val src <= val dest).
Proof.
  intros HN Hd Hs r. subst r.
  destruct (mpi_sub_whole N HN dest src Hd Hs) as (Hn & Hv).
  destruct (mpi_add_whole N HN _ src Hn Hs) as (d' & c & E & Hd' & Hc & Ha).
  rewrite E. cbn [fst snd].
  pose proof Hd as [Ld Wd]%number_iff. pose proof Hs as [Ls Ws]%number_iff.
  pose proof Hd' as [Ld' Wd']%number_iff.
  pose proof (val_bound dest Wd) as Bd. rewrite Ld in Bd.
  pose proof (val_bound src Ws) as Bs. rewrite Ls in Bs.
  pose proof (val_bound d' Wd') as Bd'. rewrite Ld' in Bd'.
  destruct (Z.le_gt_cases (val src) (val dest)) as [G|G].
  - rewrite Hv, Z.mod_small in Ha by lia.
    assert (c = 0) by nia. subst c.
    split; [apply val_inj; [lia | assumption | assumption | lia]|].
    split; split; intros; lia.
  - assert (Em : (val dest - val src) mod Bpow N = val dest - val src + Bpow N).
    { symmetry. apply Z.mod_unique_pos with (q := -1); lia. }
    rewrite Hv, Em in Ha.
    assert (c = 1) by nia. subst c.
    split; [apply val_inj; [lia | assumption | assumption | lia]|].
    split; split; intros; lia.
Qed.

Lemma example_add_after_sub :
  let r := mpi_add 2 (mpi_sub 2 [0; 0] 0 [1; 0]) 0 [1; 0] in
  fst r = [0; 0] /\ (snd r = 1 <-> val [0; 0] < val [1; 0]) /\
  (snd r = 0 <-> val [1; 0] <= val [0; 0]).
Proof.
  apply (mpi_add_after_sub 2 [0; 0] [1; 0]); [lia | reflexivity | reflexivity].
Defined.

(** X5. [mpi_add] is commutative: exchanging the operands gives the same
    [N] words and the same carry. *)
Theorem mpi_add_comm (N : nat) (a b : list Z) :
  (1 <= N <= 255)%nat -> number N a = true -> number N b = true ->
  mpi_add N a 0 b = mpi_add N b 0 a.
Proof.
  intros HN Ha Hb.
  destruct (mpi_add_whole N HN a b Ha Hb) as (d1 & c1 & E1 & [L1 W1]%number_iff & Hc1 & V1).
  destruct (mpi_add_whole N HN b a Hb Ha) as (d2 & c2 & E2 & [L2 W2]%number_iff & Hc2 & V2).
  rewrite E1, E2.
  pose proof (val_bound d1 W1) as B1. rewrite L1 in B1.
  pose proof (val_bound d2 W2) as B2. rewrite L2 in B2.
  assert (c1 = c2) by nia. subst c2.
  f_equal. apply val_inj; [lia | assumption | assumption | lia].
Qed.

Lemma example_add_comm :
  mpi_add 2 [65535; 7] 0 [3; 65535] = mpi_add 2 [3; 65535] 0 [65535; 7].
Proof.
  apply (mpi_add_comm 2 [65535; 7] [3; 65535]); [lia | reflexivity | reflexivity].
Defined.

(** ** Comparison *)

(** X6. [mpi_cmp] orders the [N]-word numbers: it returns -1, 0 or 1, it
    returns 0 exactly when the two word sequences are identical, and
    "greater or equal" is transitive. *)
Theorem mpi_cmp_order (N : nat) (a b c : list Z) :
  (1 <= N <= 255)%nat ->
  number N a = true -> number N b = true -> number N c = true ->
  (mpi_cmp N a 0 b = -1 \/ mpi_cmp N a 0 b = 0 \/ mpi_cmp N a 0 b = 1) /\
  (mpi_cmp N a 0 b = 0 <-> a = b) /\
  (0 <= mpi_cmp N a 0 b -> 0 <= mpi_cmp N b 0 c -> 0 <= mpi_cmp N a 0 c).
Proof.
  intros HN Ha Hb Hc. rewrite !mpi_cmp_whole by assumption.
  apply number_iff in Ha as [La Wa]. apply number_iff in Hb as [Lb Wb].
  split; [|split].
  - destruct (Z.sgn_spec (val a - val b)) as [[_ ->]|[[_ ->]|[_ ->]]]; lia.
  - rewrite Z.sgn_null_iff. split.
    + intros E. apply val_inj; [lia | assumption | assumption | lia].
    + intros ->. lia.
  - rewrite !Z.sgn_nonneg. lia.
Qed.

Lemma example_cmp_order :
  (mpi_cmp 2 [5; 8] 0 [6; 7] = -1 \/ mpi_cmp 2 [5; 8] 0 [6; 7] = 0 \/
   mpi_cmp 2 [5; 8] 0 [6; 7] = 1) /\
  (mpi_cmp 2 [5; 8] 0 [6; 7] = 0 <-> [5; 8] = [6; 7]) /\
  (0 <= mpi_cmp 2 [5; 8] 0 [6; 7] -> 0 <= mpi_cmp 2 [6; 7] 0 [9; 6] ->
   0 <= mpi_cmp 2 [5; 8] 0 [9; 6]).
Proof.
  apply (mpi_cmp_order 2 [5; 8] [6; 7] [9; 6]);
    [lia | reflexivity | reflexivity | reflexivity].
Defined.

(** X7. The scan of [mpi_cmp] stops at the most-significant word: when the
    top words differ, their order is the result, whatever the lower words
    are. *)
Theorem mpi_cmp_top_word (N : nat) (al bl : list Z) (x y : Z) :
  (1 <= N <= 255)%nat ->
  number N (al ++ [x]) = true -> number N (bl ++ [y]) = true -> x <> y ->
  mpi_cmp N (al ++ [x]) 0 (bl ++ [y]) = Z.sgn (x - y).
Proof.
  intros HN Ha Hb Hne. rewrite mpi_cmp_whole by assumption.
  apply number_iff in Ha as [La Wa]. apply number_iff in Hb as [Lb Wb].
  rewrite length_snoc in La, Lb.
  apply words_app in Wa as [Wa _]. apply words_app in Wb as [Wb _].
  pose proof (val_bound al Wa) as Ba. pose proof (val_bound bl Wb) as Bb.
  replace (length bl) with (length al) in Bb by lia.
  rewrite !val_app. replace (length bl) with (length al) by lia. simpl val.
  pose proof (Bpow_pos (length al)) as BP.
  destruct (Z.lt_total x y) as [L|[E|G]]; [|contradiction|].
  - rewrite (Z.sgn_neg (x - y)) by lia. apply Z.sgn_neg. nia.
  - rewrite (Z.sgn_pos (x - y)) by lia. apply Z.sgn_pos. nia.
Qed.

Lemma example_cmp_top_word :
  mpi_cmp 2 ([65535] ++ [7]) 0 ([0] ++ [8]) = Z.sgn (7 - 8).
Proof.
  apply (mpi_cmp_top_word 2 [65535] [0] 7 8);
    [lia | reflexivity | reflexivity | lia].
Defined.

(** ** Multiply-subtract by a digit *)

(** X8. [mpi_mulsubuuk] at word [c] of a longer buffer rewrites the
    [N + 1] words at [c] and no other word: they hold [c - a * b], plus
    [2^(16 (N + 1))] exactly when 0 is returned. *)
Theorem mpi_mulsubuuk_in_place (N : nat) (mem : list Z) (c : nat)
    (a : list Z) (b : Z) :
  (1 <= N <= 255)%nat -> (c + S N <= length mem)%nat ->
  words (take (S N) (drop c mem)) = true -> number N a = true ->
  0 <= b < 65536 ->
  let r := mpi_mulsubuuk N mem c a b in
  length (fst r) = length mem /\
  take c (fst r) = take c mem /\
  drop (c + S N) (fst r) = drop (c + S N) mem /\
  words (take (S N) (drop c (fst r))) = true /\
  (snd r = 0 \/ snd r = 1) /\
  val (take (S N) (drop c (fst r)))
    = val (take (S N) (drop c mem)) - val a * b
      + 2 ^ (16 * Z.of_nat (S N)) * (1 - snd r).
Proof.
  intros HN Hm Ww [La Wa]%number_iff Hb r. subst r. rewrite pow2_Bpow.
  destruct (window_split mem c (S N) Hm) as (Em & Lp & Lw).
  destruct (mpi_mulsubuuk_window N HN (take c mem) (take (S N) (drop c mem))
              (drop (c + S N) mem) a b Lw La Ww Wa Hb)
    as (w' & nb & E & L' & W' & Hnb & Hv).
  rewrite Lp, <- Em in E. rewrite E. cbn [fst snd].
  destruct (window_written mem c (S N) w' Hm L') as (F1 & F2 & F3 & F4).
  rewrite F3. repeat split; try assumption; lia.
Qed.

Lemma example_mulsubuuk_in_place :
  let r := mpi_mulsubuuk 2 [7; 5; 7; 9; 11] 1 [65535; 65535] 65535 in
  length (fst r) = length [7; 5; 7; 9; 11] /\
  take 1 (fst r) = take 1 [7; 5; 7; 9; 11] /\
  drop (1 + 3) (fst r) = drop (1 + 3) [7; 5; 7; 9; 11] /\
  words (take 3 (drop 1 (fst r))) = true /\
  (snd r = 0 \/ snd r = 1) /\
  val (take 3 (drop 1 (fst r)))
    = val (take 3 (drop 1 [7; 5; 7; 9; 11])) - val [65535; 65535] * 65535
      + 2 ^ (16 * Z.of_nat 3) * (1 - snd r).
Proof.
  apply (mpi_mulsubuuk_in_place 2 [7; 5; 7; 9; 11] 1 [65535; 65535] 65535);
    [lia | simpl; lia | reflexivity | reflexivity | lia].
Defined.

(** X9. With the true quotient digit [q] of [c] by [a], [mpi_mulsubuuk]
    returns 1 and leaves the remainder [c mod a] in the accumulator, whose
    top word is then 0. *)
Theorem mpi_mulsubuuk_true_digit (N : nat) (c a : list Z) (q : Z) :
  (1 <= N <= 255)%nat -> number (S N) c = true -> number N a = true ->
  0 <= q < 65536 -> val a * q <= val c < val a * (q + 1) ->
  let r := mpi_mulsubuuk N c 0 a q in
  snd r = 1 /\ val (fst r) = val c mod val a /\
  val (fst r) = val c - val a * q /\ rd (fst r) N = 0.
Proof.
  intros HN [Lc Wc]%number_iff [La Wa]%number_iff Hq Hd r. subst r.
  destruct (mpi_mulsubuuk_window N HN [] c [] a q Lc La Wc Wa Hq)
    as (w' & nb & E & L' & W' & Hnb & Hv).
  cbn [app length] in E. rewrite !app_nil_r in E. rewrite E. cbn [fst snd].
  pose proof (val_bound w' W') as B'. rewrite L' in B'.
  pose proof (val_bound a Wa) as Ba. rewrite La in Ba.
  assert (EB : Bpow (S N) = 65536 * Bpow N) by apply Bpow_S.
  assert (nb = 1) by nia. subst nb.
  assert (Ev : val w' = val c - val a * q) by lia.
  split; [reflexivity|].
  split; [rewrite Ev; apply Z.mod_unique_pos with (q := q); lia|].
  split; [exact Ev|].
  destruct (snoc_inv w' N L') as (r' & z & -> & Lr').
  apply words_app in W' as [Wr' Wz]. apply words_cons in Wz as [Hz _].
  pose proof (val_bound r' Wr') as Br. rewrite Lr' in Br.
  rewrite val_app, Lr' in Ev. simpl val in Ev.
  assert (z = 0) by nia. subst z. rewrite <- Lr'. apply rd_last.
Qed.

Lemma example_mulsubuuk_true_digit :
  let r := mpi_mulsubuuk 2 [5; 7; 9] 0 [65535; 32768] 17 in
  snd r = 1 /\ val (fst r) = val [5; 7; 9] mod val [65535; 32768] /\
  val (fst r) = val [5; 7; 9] - val [65535; 32768] * 17 /\ rd (fst r) 2 = 0.
Proof.
  apply (mpi_mulsubuuk_true_digit 2 [5; 7; 9] [65535; 32768] 17);
    [lia | reflexivity | reflexivity | lia | simpl; lia].
Defined.

(** ** Multiplication *)

(** X10. [mpi_muluu] is commutative, although its two sweeps walk [a]
    upwards and [b] downwards: exchanging the operands leaves the same
    buffer. *)
Theorem mpi_muluu_comm (N : nat) (c a b : list Z) :
  (2 <= N <= 255)%nat -> (2 * N <= length c)%nat ->
  number N a = true -> number N b = true ->
  mpi_muluu N c a b = mpi_muluu N c b a.
Proof.
  intros HN Hc [La Wa]%number_iff [Lb Wb]%number_iff.
  destruct (mpi_muluu_spec N HN a b La Lb Wa Wb c Hc) as (w1 & E1 & L1 & W1 & V1).
  destruct (mpi_muluu_spec N HN b a Lb La Wb Wa c Hc) as (w2 & E2 & L2 & W2 & V2).
  rewrite E1, E2. f_equal.
  apply val_inj; [lia | assumption | assumption | lia].
Qed.

Lemma example_muluu_comm :
  mpi_muluu 2 [9; 9; 9; 9] [12345; 6789] [1213; 21415]
    = mpi_muluu 2 [9; 9; 9; 9] [1213; 21415] [12345; 6789].
Proof.
  apply (mpi_muluu_comm 2 [9; 9; 9; 9] [12345; 6789] [1213; 21415]);
    [lia | simpl; lia | reflexivity | reflexivity].
Defined.

(** X11. [mpi_muluu] never reads the output buffer: from any two initial
    contents it produces the same [2 N] product words. *)
Theorem mpi_muluu_ignores_output (N : nat) (c c' a b : list Z) :
  (2 <= N <= 255)%nat -> (2 * N <= length c)%nat -> (2 * N <= length c')%nat ->
  number N a = true -> number N b = true ->
  take (2 * N) (mpi_muluu N c a b) = take (2 * N) (mpi_muluu N c' a b).
Proof.
  intros HN Hc Hc' [La Wa]%number_iff [Lb Wb]%number_iff.
  destruct (mpi_muluu_spec N HN a b La Lb Wa Wb c Hc) as (w1 & E1 & L1 & W1 & V1).
  destruct (mpi_muluu_spec N HN a b La Lb Wa Wb c' Hc') as (w2 & E2 & L2 & W2 & V2).
  rewrite E1, E2, !take_app_length' by (symmetry; assumption).
  apply val_inj; [lia | assumption | assumption | lia].
Qed.

Lemma example_muluu_ignores_output :
  take (2 * 2) (mpi_muluu 2 [9; 9; 9; 9] [12345; 6789] [1213; 21415])
    = take (2 * 2) (mpi_muluu 2 [0; 1; 2; 3; 4] [12345; 6789] [1213; 21415]).
Proof.
  apply (mpi_muluu_ignores_output 2 [9; 9; 9; 9] [0; 1; 2; 3; 4] [12345; 6789] [1213; 21415]);
    [lia | simpl; lia | simpl; lia | reflexivity | reflexivity].
Defined.

(** ** Reduction *)

Section ReduceTail.

Variable N : nat.
Hypothesis N_range : (1 <= N <= 255)%nat.
Variable b : list Z.
Hypothesis b_length : length b = N.
Hypothesis b_words : words b = true.
Hypothesis b_normalized : normalized N b = true.

(** The rounds of the division on a buffer that continues after the
    [2 N] words of the dividend. *)
Lemma moduu_rounds_tail a t :
  length a = (2 * N)%nat -> words a = true ->
  forall k, (k <= N)%nat ->
  exists r,
    Nat.iter (S k) (moduu_body N b) (a ++ t, N, false)
      = (take (N - k) a ++ r ++ replicate k 0 ++ t, (N - S k)%nat,
         negb (rd r (N - 1) =? 0)) /\
    length r = N /\ words r = true /\
    val r = val (drop (N - k) a) mod val b.
Proof.
  intros La Wa.
  destruct (divisor_bounds N N_range b b_length b_words b_normalized) as (Hb & Hb2 & Hb1).
  induction k as [|k IH]; intros Hk.
  - rewrite Nat.sub_0_r. cbn [Nat.iter nat_rect].
    destruct (moduu_body_clear N N_range b b_length b_words b_normalized
                (take N a) (drop N a) t)
      as (d' & E & Ld & Wd & Vd);
      [rewrite length_drop; lia | apply words_drop, Wa |].
    replace (take N a ++ drop N a ++ t) with (a ++ t) in E
      by (rewrite app_assoc, take_drop; reflexivity).
    rewrite length_take in E. replace (N `min` length a)%nat with N in E by lia.
    exists d'. rewrite E. split; [f_equal; f_equal; lia|].
    repeat split; assumption.
  - destruct IH as (r & E & Lr & Wr & Vr); [lia|].
    rewrite Nat.iter_succ, E. clear E.
    set (i := (N - S k)%nat) in *.
    assert (Hi : (i < length a)%nat) by lia.
    replace (N - k)%nat with (S i) in * by lia.
    rewrite take_rd by assumption. rewrite (drop_rd a i) by assumption.
    pose proof (words_rd a i Wa) as Hx. set (x := rd a i) in *. clearbody x.
    assert (Lp : length (take i a) = i) by (rewrite length_take; lia).
    pose proof (Z.mod_pos_bound (val (drop (S i) a)) (val b) ltac:(lia)) as Hm.
    rewrite <- Vr in Hm. simpl val. rewrite <- mod_shift_in, <- Vr by lia.
    assert (Ep : (N - S (S k))%nat = pred (length (take i a))) by (rewrite Lp; lia).
    rewrite Ep. clear Ep.
    destruct (Z.eqb_spec (rd r (N - 1)) 0) as [E0|E0]; cbn [negb].
    + destruct (snoc_inv r (N - 1)) as (r0 & z & Er & L0); [lia|].
      rewrite Er, <- L0, rd_last in E0. subst z.
      pose proof Wr as W. rewrite Er in W. apply words_app in W as [W0 _].
      destruct (moduu_body_clear N N_range b b_length b_words b_normalized
                  (take i a) (x :: r0) (replicate (S k) 0 ++ t))
        as (d' & E & Ld & Wd & Vd);
        [simpl; lia | apply words_cons; split; assumption |].
      replace ((take i a ++ [x]) ++ r ++ replicate k 0 ++ t, i, false)
        with (take i a ++ (x :: r0) ++ replicate (S k) 0 ++ t, length (take i a), false)
        by (rewrite Lp, Er, <- !app_assoc; reflexivity).
      rewrite E. exists d'. repeat split; try assumption.
      rewrite Vd, Er, val_app. simpl val. f_equal. lia.
    + destruct (moduu_body_set N N_range b b_length b_words b_normalized
                  (take i a) (x :: r) (replicate k 0 ++ t))
        as (w' & E & Lw & Ww & Vw);
        [simpl; lia | apply words_cons; split; assumption | simpl val; lia |].
      replace ((take i a ++ [x]) ++ r ++ replicate k 0 ++ t, i, true)
        with (take i a ++ (x :: r) ++ replicate k 0 ++ t, length (take i a), true)
        by (rewrite Lp, <- !app_assoc; reflexivity).
      rewrite E. clear E.
      destruct (snoc_inv w' N Lw) as (r' & z & -> & Lr').
      apply words_app in Ww as [Wr' Wz]. apply words_cons in Wz as [Hz _].
      pose proof (val_bound r' Wr') as Br. rewrite Lr' in Br.
      pose proof (Z.mod_pos_bound (val (x :: r)) (val b) ltac:(lia)) as Hm'.
      rewrite <- Vw, val_app, Lr' in Hm'. simpl val in Hm'.
      assert (z = 0) by nia. subst z.
      rewrite val_app, Lr' in Vw. simpl val in Vw.
      exists r'. rewrite rd_app_l by lia. rewrite <- (app_assoc r').
      repeat split; try assumption. lia.
Qed.

End ReduceTail.

(** X12. Reducing twice is reducing once: [mpi_moduu] applied to its own
    result leaves the buffer as it is. *)
Theorem mpi_moduu_idempotent (N : nat) (a b : list Z) :
  (1 <= N <= 255)%nat -> number (2 * N) a = true -> number N b = true ->
  normalized N b = true ->
  mpi_moduu N (mpi_moduu N a b) b = mpi_moduu N a b.
Proof.
  intros HN [La Wa]%number_iff [Lb Wb]%number_iff Hn.
  destruct (mpi_moduu_spec N HN b Lb Wb Hn a La Wa) as (r & E & Lr & Wr & Vr).
  destruct (divisor_bounds N HN b Lb Wb Hn) as (Hb & _).
  rewrite E.
  destruct (mpi_moduu_spec N HN b Lb Wb Hn (r ++ replicate N 0))
    as (r2 & E2 & Lr2 & Wr2 & Vr2).
  - rewrite length_app, length_replicate. lia.
  - apply words_app. split; [assumption | apply words_replicate].
  - rewrite E2. f_equal. apply val_inj; [lia | assumption | assumption |].
    rewrite Vr2, val_app, val_replicate, Z.mul_0_r, Z.add_0_r, Vr.
    apply Z.mod_mod. lia.
Qed.

Lemma example_moduu_idempotent :
  mpi_moduu 2 (mpi_moduu 2 [12345; 6789; 1011; 65535] [1213; 32768]) [1213; 32768]
    = mpi_moduu 2 [12345; 6789; 1011; 65535] [1213; 32768].
Proof.
  apply (mpi_moduu_idempotent 2 [12345; 6789; 1011; 65535] [1213; 32768]);
    [lia | reflexivity | reflexivity | reflexivity].
Defined.

(** X13. [mpi_moduu] writes only the [2 N] words of the dividend: whatever
    follows them in the buffer is still there afterwards. *)
Theorem mpi_moduu_tail (N : nat) (a t b : list Z) :
  (1 <= N <= 255)%nat -> number (2 * N) a = true -> number N b = true ->
  normalized N b = true ->
  mpi_moduu N (a ++ t) b = mpi_moduu N a b ++ t.
Proof.
  intros HN [La Wa]%number_iff [Lb Wb]%number_iff Hn.
  destruct (mpi_moduu_spec N HN b Lb Wb Hn a La Wa) as (r & E & Lr & Wr & Vr).
  rewrite E. unfold mpi_moduu. rewrite loop_count_u8_succ by assumption.
  destruct (moduu_rounds_tail N HN b Lb Wb Hn a t La Wa N) as (r' & E' & Lr' & Wr' & Vr');
    [lia|].
  rewrite E', Nat.sub_diag in *. rewrite take_0. rewrite drop_0 in Vr'.
  cbn [fst app]. rewrite <- app_assoc.
  f_equal. apply val_inj; [lia | assumption | assumption | lia].
Qed.

Lemma example_moduu_tail :
  mpi_moduu 2 ([12345; 6789; 1011; 65535] ++ [7; 8]) [1213; 32768]
    = mpi_moduu 2 [12345; 6789; 1011; 65535] [1213; 32768] ++ [7; 8].
Proof.
  apply (mpi_moduu_tail 2 [12345; 6789; 1011; 65535] [7; 8] [1213; 32768]);
    [lia | reflexivity | reflexivity | reflexivity].
Defined.



(** ** Modular multiplication and the exponentiation *)

Lemma pow_mod_congr a b e n :
  0 < n -> a mod n = b mod n -> a ^ e mod n = b ^ e mod n.
Proof.
  intros Hn H. rewrite (Zpower_mod a e n), (Zpower_mod b e n), H by assumption.
  reflexivity.
Qed.

Lemma pow_mul_mod a b e n :
  0 < n -> (a * b) ^ e mod n = ((a ^ e mod n) * (b ^ e mod n)) mod n.
Proof. intros Hn. rewrite Z.pow_mul_l. apply Z.mul_mod. lia. Qed.

Lemma pow_minus_one n e :
  1 < n -> (-1) ^ e = -1 -> (n - 1) ^ e mod n = n - 1.
Proof.
  intros Hn He.
  assert (E : (n - 1) mod n = (-1) mod n).
  { rewrite Z.mod_small by lia. apply Z.mod_unique_pos with (q := -1); lia. }
  rewrite (pow_mod_congr (n - 1) (-1) e n) by (lia || exact E).
  rewrite He. symmetry. apply Z.mod_unique_pos with (q := -1); lia.
Qed.

(** X15. A call of [mpi_muluu] into a [2 N]-word buffer followed by
    [mpi_moduu] on that buffer is a modular multiplication: the low [N]
    words hold [x * y mod n], the upper [N] words are zero, and nothing of
    what the buffer held before survives. *)
Theorem mpi_mulmod (N : nat) (c x y n : list Z) :
  (2 <= N <= 255)%nat -> length c = (2 * N)%nat ->
  number N x = true -> number N y = true ->
  number N n = true -> normalized N n = true ->
  let r := mpi_moduu N (mpi_muluu N c x y) n in
  number N (take N r) = true /\
  val (take N r) = (val x * val y) mod val n /\
  drop N r = replicate N 0.
Proof.
  intros HN Lc [Lx Wx]%number_iff [Ly Wy]%number_iff [Ln Wn]%number_iff Hn r. subst r.
  destruct (mul_then_mod N HN n Ln Wn Hn c x y Lc Lx Ly Wx Wy) as (r & E & Lr & Wr & Vr).
  rewrite E, take_app_length', drop_app_length' by (symmetry; exact Lr).
  split; [apply number_intro; assumption|]. split; [exact Vr | reflexivity].
Qed.

Lemma example_mulmod :
  let r := mpi_moduu 2 (mpi_muluu 2 [9; 9; 9; 9] [12345; 6789] [1213; 21415]) [211; 40000] in
  number 2 (take 2 r) = true /\
  val (take 2 r) = (val [12345; 6789] * val [1213; 21415]) mod val [211; 40000] /\
  drop 2 r = replicate 2 0.
Proof.
  apply (mpi_mulmod 2 [9; 9; 9; 9] [12345; 6789] [1213; 21415] [211; 40000]);
    [lia | reflexivity | reflexivity | reflexivity | reflexivity | reflexivity].
Defined.

(** X16. The squaring loop of [mpi_powm65537] after [i >= 1] rounds:
    [bufmod] holds the base raised to [2^i] modulo [n], and [bufprod]
    holds the same number zero-extended to [2 N] words. *)
Theorem square_loop_invariant (N : nat) (bufprod bufmod n : list Z) (i : nat) :
  (2 <= N <= 255)%nat -> length bufprod = (2 * N)%nat ->
  number N bufmod = true -> number N n = true -> normalized N n = true ->
  (1 <= i)%nat ->
  let st := Nat.iter i (square_round N n) (bufprod, bufmod) in
  number N (snd st) = true /\
  val (snd st) = val bufmod ^ 2 ^ Z.of_nat i mod val n /\
  fst st = snd st ++ replicate N 0.
Proof.
  intros HN Lp [Lm Wm]%number_iff [Ln Wn]%number_iff Hn Hi st. subst st.
  destruct i as [|j]; [lia|]. rewrite Nat.iter_succ.
  destruct (square_rounds N HN n Ln Wn Hn j bufprod bufmod Lp Lm Wm)
    as (bp & bm & E & Lbp & Lbm & Wbm & Vbm).
  rewrite E. unfold square_round.
  destruct (mul_then_mod N HN n Ln Wn Hn bp bm bm Lbp Lbm Lbm Wbm Wbm)
    as (r & E' & Lr & Wr & Vr).
  assert (E1 : memcpy bm (r ++ replicate N 0) N = r).
  { rewrite <- Lr at 2. rewrite memcpy_all, drop_ge, app_nil_r by lia. reflexivity. }
  rewrite E', E1. cbn [fst snd].
  pose proof (modulus_bounds N HN n Ln Wn Hn) as Bn.
  split; [apply number_intro; assumption|]. split; [|reflexivity].
  rewrite Vr, pow_double, Z.mul_mod, Vbm, <- Z.mul_mod by lia. reflexivity.
Qed.

Lemma example_square_loop_invariant :
  let st := Nat.iter 3 (square_round 2 [211; 40000]) ([1; 2; 3; 4], [5; 0]) in
  number 2 (snd st) = true /\
  val (snd st) = val [5; 0] ^ 2 ^ Z.of_nat 3 mod val [211; 40000] /\
  fst st = snd st ++ replicate 2 0.
Proof.
  apply (square_loop_invariant 2 [1; 2; 3; 4] [5; 0] [211; 40000] 3);
    [lia | reflexivity | reflexivity | reflexivity | reflexivity | lia].
Defined.

Section PowerFacts.

Variable N : nat.
Hypothesis N_range : (2 <= N <= 255)%nat.
Variable n : list Z.
Hypothesis n_number : number N n = true.
Hypothesis n_normalized : normalized N n = true.

(** The result of [mpi_powm65537] with the exponent kept abstract. *)
Lemma powm_value bufprod bufmod m :
  length bufprod = (2 * N)%nat -> length bufmod = N -> number N m = true ->
  exists e, e = 65537 /\
    number N (mpi_powm65537 N bufprod bufmod m n) = true /\
    val (mpi_powm65537 N bufprod bufmod m n) = val m ^ e mod val n /\
    1 < val n.
Proof.
  intros Lp Lb [Lm Wm]%number_iff. pose proof n_number as [Ln Wn]%number_iff.
  destruct (mpi_powm65537_spec N N_range n Ln Wn n_normalized bufprod bufmod m Lp Lb Lm Wm)
    as (Lr & Wr & Vr).
  exists 65537. split; [reflexivity|].
  split; [apply number_intro; [exact Lr | exact Wr]|]. split; [exact Vr|].
  apply (modulus_bounds N N_range n Ln Wn n_normalized).
Qed.

End PowerFacts.

(** X17. [mpi_powm65537] never depends on what its two stack buffers held
    on entry: any two initial contents give the same result. *)
Theorem mpi_powm65537_ignores_stack (N : nat)
    (bufprod bufmod bufprod' bufmod' m n : list Z) :
  (2 <= N <= 255)%nat ->
  length bufprod = (2 * N)%nat -> length bufmod = N ->
  length bufprod' = (2 * N)%nat -> length bufmod' = N ->
  number N m = true -> number N n = true -> normalized N n = true ->
  mpi_powm65537 N bufprod bufmod m n = mpi_powm65537 N bufprod' bufmod' m n.
Proof.
  intros HN Lp Lb Lp' Lb' Hm Hnn Hn.
  destruct (powm_value N HN n Hnn Hn bufprod bufmod m Lp Lb Hm)
    as (e & He & [L1 W1]%number_iff & V1 & _).
  destruct (powm_value N HN n Hnn Hn bufprod' bufmod' m Lp' Lb' Hm)
    as (e' & He' & [L2 W2]%number_iff & V2 & _).
  apply val_inj; [congruence | assumption | assumption |].
  rewrite V1, V2, He, He'. reflexivity.
Qed.

Lemma example_powm65537_ignores_stack :
  mpi_powm65537 2 [1; 2; 3; 4] [5; 6] [1234; 4321] [211; 40000]
    = mpi_powm65537 2 [0; 0; 0; 0] [0; 0] [1234; 4321] [211; 40000].
Proof.
  apply (mpi_powm65537_ignores_stack 2 [1; 2; 3; 4] [5; 6] [0; 0; 0; 0] [0; 0]
           [1234; 4321] [211; 40000]);
    [lia | reflexivity | reflexivity | reflexivity | reflexivity
    | reflexivity | reflexivity | reflexivity].
Defined.

(** X18. The result of [mpi_powm65537] is reduced: it is below [n], and
    it depends on [m] only through [m mod n], so a base that is not below
    the modulus gives the same result as its residue. *)
Theorem mpi_powm65537_congruent (N : nat) (bufprod bufmod m m' n : list Z) :
  (2 <= N <= 255)%nat ->
  length bufprod = (2 * N)%nat -> length bufmod = N ->
  number N m = true -> number N m' = true ->
  number N n = true -> normalized N n = true ->
  val m mod val n = val m' mod val n ->
  val (mpi_powm65537 N bufprod bufmod m n) < val n /\
  mpi_powm65537 N bufprod bufmod m n = mpi_powm65537 N bufprod bufmod m' n.
Proof.
  intros HN Lp Lb Hm Hm' Hnn Hn Hc.
  destruct (powm_value N HN n Hnn Hn bufprod bufmod m Lp Lb Hm)
    as (e & He & [L1 W1]%number_iff & V1 & Bn).
  destruct (powm_value N HN n Hnn Hn bufprod bufmod m' Lp Lb Hm')
    as (e' & He' & [L2 W2]%number_iff & V2 & _).
  assert (Ee : e' = e) by congruence. rewrite Ee in V2. clear He He' Ee.
  split.
  - rewrite V1. apply Z.mod_pos_bound. lia.
  - apply val_inj; [congruence | assumption | assumption |].
    rewrite V1, V2. apply pow_mod_congr; [lia | exact Hc].
Qed.

Lemma example_powm65537_congruent :
  val (mpi_powm65537 2 [1; 2; 3; 4] [5; 6] [5; 0] [211; 40000]) < val [211; 40000] /\
  mpi_powm65537 2 [1; 2; 3; 4] [5; 6] [5; 0] [211; 40000]
    = mpi_powm65537 2 [1; 2; 3; 4] [5; 6] [216; 40000] [211; 40000].
Proof.
  apply (mpi_powm65537_congruent 2 [1; 2; 3; 4] [5; 6] [5; 0] [216; 40000] [211; 40000]);
    [lia | reflexivity | reflexivity | reflexivity | reflexivity
    | reflexivity | reflexivity | reflexivity].
Defined.

(** X19. The base [n - 1] is a fixed point of [mpi_powm65537], the
    exponent being odd: the buffer of [m] is left as it was. *)
Theorem mpi_powm65537_minus_one (N : nat) (bufprod bufmod m n : list Z) :
  (2 <= N <= 255)%nat ->
  length bufprod = (2 * N)%nat -> length bufmod = N ->
  number N m = true -> number N n = true -> normalized N n = true ->
  val m = val n - 1 ->
  mpi_powm65537 N bufprod bufmod m n = m.
Proof.
  intros HN Lp Lb Hm Hnn Hn Hv.
  destruct (powm_value N HN n Hnn Hn bufprod bufmod m Lp Lb Hm)
    as (e & He & [L1 W1]%number_iff & V1 & Bn).
  assert (H1 : (-1) ^ e = -1) by (rewrite He; vm_compute; reflexivity).
  clear He. apply number_iff in Hm as [Lm Wm].
  apply val_inj; [congruence | assumption | assumption |].
  rewrite V1, Hv. apply pow_minus_one; assumption.
Qed.

Lemma example_powm65537_minus_one :
  mpi_powm65537 2 [1; 2; 3; 4] [5; 6] [210; 40000] [211; 40000] = [210; 40000].
Proof.
  apply (mpi_powm65537_minus_one 2 [1; 2; 3; 4] [5; 6] [210; 40000] [211; 40000]);
    [lia | reflexivity | reflexivity | reflexivity | reflexivity
    | reflexivity | reflexivity].
Defined.

(** X20. [mpi_powm65537] is multiplicative modulo [n]: the result for a
    base congruent to [m1 * m2] is the product of the results for [m1]
    and [m2], reduced modulo [n]. *)
Theorem mpi_powm65537_multiplicative (N : nat)
    (bufprod bufmod m1 m2 m3 n : list Z) :
  (2 <= N <= 255)%nat ->
  length bufprod = (2 * N)%nat -> length bufmod = N ->
  number N m1 = true -> number N m2 = true -> number N m3 = true ->
  number N n = true -> normalized N n = true ->
  val m3 mod val n = (val m1 * val m2) mod val n ->
  val (mpi_powm65537 N bufprod bufmod m3 n)
    = (val (mpi_powm65537 N bufprod bufmod m1 n)
       * val (mpi_powm65537 N bufprod bufmod m2 n)) mod val n.
Proof.
  intros HN Lp Lb H1 H2 H3 Hnn Hn Hc.
  destruct (powm_value N HN n Hnn Hn bufprod bufmod m1 Lp Lb H1)
    as (e1 & He1 & _ & V1 & Bn).
  destruct (powm_value N HN n Hnn Hn bufprod bufmod m2 Lp Lb H2)
    as (e2 & He2 & _ & V2 & _).
  destruct (powm_value N HN n Hnn Hn bufprod bufmod m3 Lp Lb H3)
    as (e & He & _ & V3 & _).
  assert (E1 : e1 = e) by congruence. assert (E2 : e2 = e) by congruence.
  rewrite E1 in V1. rewrite E2 in V2. clear He He1 He2 E1 E2.
  rewrite V1, V2, V3, <- pow_mul_mod by lia.
  apply pow_mod_congr; [lia | exact Hc].
Qed.

Lemma example_powm65537_multiplicative :
  val (mpi_powm65537 2 [1; 2; 3; 4] [5; 6] [35; 0] [211; 40000])
    = (val (mpi_powm65537 2 [1; 2; 3; 4] [5; 6] [5; 0] [211; 40000])
       * val (mpi_powm65537 2 [1; 2; 3; 4] [5; 6] [7; 0] [211; 40000]))
      mod val [211; 40000].
Proof.
  apply (mpi_powm65537_multiplicative 2 [1; 2; 3; 4] [5; 6] [5; 0] [7; 0] [35; 0]
           [211; 40000]);
    [lia | reflexivity | reflexivity | reflexivity | reflexivity | reflexivity
    | reflexivity | reflexivity | reflexivity].
Defined.


